(** * svelte-tiny-i18n: a shallow embedding of [createI18nStore]

    The development follows [src/svelte-tiny-i18n.ts]: the locale resolver
    [getInitLocale], the table builder [makeTranslation], the two stores
    [locale] and [_t] with the subscriber that links them, the translator
    [t], and the two API functions [setLocale] and [extendTranslations].

    Data.  JavaScript strings are [string]; the only characters the code
    inspects are the ASCII hyphen and the two braces, so the width of a
    code unit plays no role.  A JavaScript [Map] and an object used as a
    dictionary are finite maps ([gmap]); an object the code walks with
    [Object.entries] is the list of its entries, in their order.  The
    [replacements] object, which the code reads with [replacements[key]],
    is the finite map of its own properties, and the read goes on to
    [Object.prototype] for a name that is not among them.

    Effects.  The stores, [localStorage] and [console.warn] are fields of
    one state record that every operation threads; a JavaScript exception
    is the [Throw] outcome of the error monad [M]. *)

From stdpp Require Import gmap strings list fin_maps pretty.
From Stdlib Require Import ZArith Ascii String.

Open Scope string_scope.

(** ** JavaScript values and outcomes *)

Module Js.

(** The only exception the modelled code can raise: a property read on
    [undefined]. *)
Inductive exn : Set := TypeError.

Inductive result (A : Type) : Type :=
| Ok (a : A)
| Throw (e : exn).
Global Arguments Ok {A} a.
Global Arguments Throw {A} e.

(** A number as the code observes it.  JavaScript numbers are IEEE doubles,
    and [t] does one thing with a number: [String(value)].  A safe integer
    (magnitude at most 2^53 - 1, both zeros being the integer 0) prints as
    its decimal numeral; every other number (a fraction, an integer out of
    the safe range, [NaN], an infinity) is given by the text that
    [Number::toString] produces for it, which is the work of the language
    and not of this code. *)
Definition MAX_SAFE_INTEGER : Z := 9007199254740991.

Definition safe_integer : Type :=
  { z : Z | Is_true (bool_decide (Z.abs z ≤ MAX_SAFE_INTEGER)%Z) }.

Inductive number : Type :=
| SafeInteger (z : safe_integer)
| OtherNumber (text : string).

Definition zero : number := SafeInteger (exist _ 0%Z I).

Definition Number_toString (n : number) : string :=
  match n with
  | SafeInteger z => pretty (proj1_sig z)
  | OtherNumber text => text
  end.

(** A value read from a [replacements] object.  The declared type of a
    property is [string | number]; callers without type checking also pass
    [null] and [undefined] (the test suite does).  A property read also
    finds what the object inherits: the built-in functions of
    [Object.prototype] ([JFunction], with the function's name) and, under
    [__proto__], the prototype itself, a plain object ([JObject]). *)
Inductive jsval : Type :=
| JStr (s : string)
| JNum (n : number)
| JNull
| JUndefined
| JFunction (name : string)
| JObject.

(** [String(value)].  A built-in function prints as its native-code stub, a
    plain object as [Object.prototype.toString] tags it. *)
Definition to_String (v : jsval) : string :=
  match v with
  | JStr s => s
  | JNum n => Number_toString n
  | JNull => "null"
  | JUndefined => "undefined"
  | JFunction name => "function " +:+ name +:+ "() { [native code] }"
  | JObject => "[object Object]"
  end.

(** The properties of [Object.prototype], which every object written as a
    literal inherits. *)
Definition Object_prototype : gmap string jsval :=
  list_to_map
    [ ("constructor", JFunction "Object");
      ("__defineGetter__", JFunction "__defineGetter__");
      ("__defineSetter__", JFunction "__defineSetter__");
      ("hasOwnProperty", JFunction "hasOwnProperty");
      ("__lookupGetter__", JFunction "__lookupGetter__");
      ("__lookupSetter__", JFunction "__lookupSetter__");
      ("isPrototypeOf", JFunction "isPrototypeOf");
      ("propertyIsEnumerable", JFunction "propertyIsEnumerable");
      ("toString", JFunction "toString");
      ("valueOf", JFunction "valueOf");
      ("__proto__", JObject);
      ("toLocaleString", JFunction "toLocaleString") ].

(** The property read [object[key]] on an object literal given by its own
    properties: an own property first, then one of [Object.prototype],
    else [undefined]. *)
Definition get_property (object : gmap string jsval) (key : string) : jsval :=
  match object !! key with
  | Some value => value
  | None => default JUndefined (Object_prototype !! key)
  end.

(** Truthiness of a string: every string but the empty one. *)
Definition truthy (s : string) : bool := negb (bool_decide (s = EmptyString)).

(** [xs.includes(x)] on an array of strings. *)
Definition includes (xs : list string) (x : string) : bool :=
  bool_decide (x ∈ xs).

(** [s.split(sep)] for a one-character separator: the pieces between the
    separators, never an empty array. *)
Fixpoint split (sep : ascii) (s : string) : list string :=
  match s with
  | EmptyString => [EmptyString]
  | String c s' =>
      if Ascii.eqb c sep then EmptyString :: split sep s'
      else match split sep s' with
           | w :: ws => String c w :: ws
           | [] => [String c EmptyString]
           end
  end.

(** [xs.join(sep)]. *)
Fixpoint join (sep : string) (xs : list string) : string :=
  match xs with
  | [] => EmptyString
  | [x] => x
  | x :: rest => x +:+ sep +:+ join sep rest
  end.

End Js.
Export Js.

(** ** Placeholder substitution: [translation.replace(/{([^{}]+)}/g, callback)] *)

Module Template.

Definition is_brace (c : ascii) : bool :=
  Ascii.eqb c "{"%char || Ascii.eqb c "}"%char.

(** The greedy class [[^{}]+]: the longest brace-free prefix and what
    follows it. *)
Fixpoint span_name (s : string) : string * string :=
  match s with
  | EmptyString => (EmptyString, EmptyString)
  | String c s' =>
      if is_brace c then (EmptyString, s)
      else let '(name, rest) := span_name s' in (String c name, rest)
  end.

(** One attempt of the regular expression at the start of [s]: an opening
    brace, one or more brace-free characters, a closing brace.  Giving back
    characters of the greedy run cannot help, since the character after a
    shorter run is brace-free.  The result is the capture group and the text
    after the match. *)
Definition exec_placeholder (s : string) : option (string * string) :=
  match s with
  | String c s' =>
      if Ascii.eqb c "{"%char then
        match span_name s' with
        | (String n name, String d rest) =>
            if Ascii.eqb d "}"%char then Some (String n name, rest) else None
        | _ => None
        end
      else None
  | EmptyString => None
  end.

(** The text of a match, [{name}]. *)
Definition token (name : string) : string := "{" +:+ name +:+ "}".

(** [String.prototype.replace] with a global pattern and a callback: the
    scan goes left to right; where the pattern matches, the callback's
    result is emitted and the scan resumes after the match ([skip] counts
    the characters of the match still to pass over); elsewhere the
    character is copied.  What the callback returned is never scanned. *)
Fixpoint replace_from (callback : string → string → string)
    (skip : nat) (s : string) : string :=
  match s with
  | EmptyString => EmptyString
  | String c s' =>
      match skip with
      | S k => replace_from callback k s'
      | O =>
          match exec_placeholder s with
          | Some (name, _) =>
              callback (token name) name
                +:+ replace_from callback (S (String.length name)) s'
          | None => String c (replace_from callback 0 s')
          end
      end
  end.

Definition replace_placeholders (callback : string → string → string)
    (s : string) : string :=
  replace_from callback 0 s.

(** The callback of [t]:
    [value !== undefined && value !== null ? String(value) : match], where
    [value] is [replacements[key]].  The object is an object literal, given
    by its own properties; the read also finds the inherited ones. *)
Definition substitute (replacements : gmap string jsval)
    (match_ key : string) : string :=
  let value := get_property replacements key in
  match value with
  | JUndefined | JNull => match_
  | _ => to_String value
  end.

Definition interpolate (replacements : gmap string jsval)
    (translation : string) : string :=
  replace_placeholders (substitute replacements) translation.

(** A placeholder name: brace-free. *)
Definition brace_free (name : string) : Prop :=
  ∀ c, c ∈ list_ascii_of_string name → is_brace c = false.

End Template.
Export Template.

(** ** The store *)

Module I18n.

(** [Object.entries(partialEntry)]: the [lang, value] pairs of one
    translation entry, e.g. [{ en: 'Hello', es: 'Hola' }]. *)
Abbreviation PartialEntry := (list (string * string)).

(** [Object.entries(entry)] of a [PartialTranslationEntryMap]: each
    translation key with its partial entry. *)
Abbreviation PartialTranslationEntryMap := (list (string * PartialEntry)).

(** [FullTranslationMap], a [Map] from locale to a [Map] from key to
    string. *)
Abbreviation FullTranslationMap := (gmap string (gmap string string)).

Record I18nConfig : Type := {
  supportedLocales : list string;
  defaultLocale : string;
  initialTranslations : list PartialTranslationEntryMap;
  localStorageKey : string;
  (** [devLogs?: boolean]; [None] when the field is omitted. *)
  devLogs : option bool;
}.

(** [devLogs = true] in the destructuring of the configuration. *)
Definition devLogs_enabled (config : I18nConfig) : bool :=
  default true (devLogs config).

(** What [createI18nStore] finds around it when it runs. *)
Record Env : Type := {
  (** [typeof window !== 'undefined'] *)
  window_defined : bool;
  (** the contents of [localStorage] *)
  stored : gmap string string;
  (** [navigator.languages], [None] when undefined *)
  navigator_languages : option (list string);
  (** [navigator.language], [None] when undefined *)
  navigator_language : option string;
}.

(** The state the operations of one store act on.  Every inner [Map] is
    created once, by [makeTranslation], and remains the value of its locale
    in [translations] for the life of the store: [extendTranslations]
    changes it in place.  A reference to an inner [Map] is therefore
    represented by the locale it is stored under, and the [_t] store, which
    holds such a reference or [undefined], sees every later change of the
    [Map] it points to. *)
Record State : Type := {
  browser : bool;
  localStorage : gmap string string;
  (** the calls of [localStorage.setItem], oldest first *)
  setItem_calls : list (string * string);
  (** the messages passed to [console.warn], oldest first *)
  console_warn : list string;
  translations : FullTranslationMap;
  (** the value of the writable store [locale] *)
  locale : string;
  (** the value of the writable store [_t] *)
  _t : option string;
}.

Definition with_locale (lang : string) (st : State) : State :=
  {| browser := browser st; localStorage := localStorage st;
     setItem_calls := setItem_calls st; console_warn := console_warn st;
     translations := translations st; locale := lang; _t := _t st |}.

Definition with_t (ref : option string) (st : State) : State :=
  {| browser := browser st; localStorage := localStorage st;
     setItem_calls := setItem_calls st; console_warn := console_warn st;
     translations := translations st; locale := locale st; _t := ref |}.

Definition with_translations (table : FullTranslationMap) (st : State) : State :=
  {| browser := browser st; localStorage := localStorage st;
     setItem_calls := setItem_calls st; console_warn := console_warn st;
     translations := table; locale := locale st; _t := _t st |}.

(** [localStorage.setItem(key, value)] *)
Definition setItem (key value : string) (st : State) : State :=
  {| browser := browser st; localStorage := <[key := value]> (localStorage st);
     setItem_calls := setItem_calls st ++ [(key, value)];
     console_warn := console_warn st;
     translations := translations st; locale := locale st; _t := _t st |}.

(** [console.warn(message)] *)
Definition warn (message : string) (st : State) : State :=
  {| browser := browser st; localStorage := localStorage st;
     setItem_calls := setItem_calls st;
     console_warn := console_warn st ++ [message];
     translations := translations st; locale := locale st; _t := _t st |}.

(** The [Map] the [_t] store holds, [None] when it holds [undefined]. *)
Definition current_view (st : State) : option (gmap string string) :=
  ref ← _t st; translations st !! ref.

(** *** The monad of the operations: state, and a thrown exception *)

Definition M (A : Type) : Type := State → result (A * State).

Global Instance M_ret : MRet M := λ A a st, Ok (a, st).
Global Instance M_bind : MBind M := λ A B f m st,
  match m st with
  | Ok (a, st') => f a st'
  | Throw e => Throw e
  end.

Definition modify (f : State → State) : M unit := λ st, Ok (tt, f st).
Definition throw {A} (e : exn) : M A := λ _, Throw e.
Definition when (b : bool) (m : M unit) : M unit := if b then m else mret tt.

Global Instance result_ret : MRet result := λ A a, Ok a.
Global Instance result_bind : MBind result := λ A B f r,
  match r with
  | Ok a => f a
  | Throw e => Throw e
  end.

(** *** [getInitLocale] *)

(** The loop over [preferredLangs], with its two early returns. *)
Fixpoint scan_preferredLangs (supported : list string)
    (preferredLangs : list string) : option string :=
  match preferredLangs with
  | [] => None
  | lang :: rest =>
      if includes supported lang then Some lang
      else
        match head (split "-"%char lang) with
        | Some baseLang =>
            if includes supported baseLang then Some baseLang
            else scan_preferredLangs supported rest
        | None => scan_preferredLangs supported rest
        end
  end.

Definition getInitLocale (config : I18nConfig) (env : Env) : string :=
  if negb (window_defined env) then defaultLocale config
  else
    let detect :=
      let preferredLangs :=
        match navigator_languages env with
        | Some languages => languages
        | None =>
            match navigator_language env with
            | Some language => if truthy language then [language] else []
            | None => []
            end
        end in
      if bool_decide (0 < List.length preferredLangs) then
        match scan_preferredLangs (supportedLocales config) preferredLangs with
        | Some lang => lang
        | None => defaultLocale config
        end
      else defaultLocale config in
    match stored env !! localStorageKey config with
    | Some storedLang =>
        if truthy storedLang && includes (supportedLocales config) storedLang
        then storedLang
        else detect
    | None => detect
    end.

(** *** [makeTranslation] *)

(** The innermost callback: [if (result.has(lang)) result.get(lang).set(key, value)]. *)
Definition set_translation (key : string) (result : FullTranslationMap)
    (pair : string * string) : FullTranslationMap :=
  let '(lang, value) := pair in
  match result !! lang with
  | Some map => <[lang := <[key := value]> map]> result
  | None => result
  end.

Definition add_partialEntry (result : FullTranslationMap)
    (item : string * PartialEntry) : FullTranslationMap :=
  let '(key, partialEntry) := item in
  foldl (set_translation key) result partialEntry.

Definition add_entry (result : FullTranslationMap)
    (entry : PartialTranslationEntryMap) : FullTranslationMap :=
  foldl add_partialEntry result entry.

Definition makeTranslation (supported : list string)
    (kv_pair : list PartialTranslationEntryMap) : FullTranslationMap :=
  let result := foldl (λ result lang, <[lang := ∅]> result) ∅ supported in
  foldl add_entry result kv_pair.

(** *** The stores *)

(** [translations.get(lang)]: a reference to the inner [Map] of [lang], or
    [undefined]. *)
Definition get_ref (table : FullTranslationMap) (lang : string) : option string :=
  match table !! lang with
  | Some _ => Some lang
  | None => None
  end.

(** The change test of a writable store of [svelte/store] on two strings:
    [set] stores and notifies only when [safe_not_equal(value, new_value)],
    which on strings is [value !== new_value].  (For the [_t] store, whose
    values are objects, the test lets every [set] through.) *)
Definition safe_not_equal (a b : string) : bool := negb (bool_decide (a = b)).

Definition gets {A} (f : State → A) : M A := λ st, Ok (f st, st).
Definition lift {A} (r : result A) : M A := λ st,
  match r with
  | Ok a => Ok (a, st)
  | Throw e => Throw e
  end.

(** The double quote character, for the messages that quote a value. *)
Definition dquote : string := String "034"%char EmptyString.

(** An argument of [setLocale]: [string | undefined | null]. *)
Inductive lang_arg : Type :=
| LString (lang : string)
| LNull
| LUndefined.

Section store.

Variable config : I18nConfig.

(** The callback passed to [locale.subscribe]: it points [_t] at the
    [Map] of the new locale when the table has one, and persists the locale
    when there is a window.  It has no failing path. *)
Definition locale_subscriber (lang : string) (st : State) : State :=
  let st1 :=
    if bool_decide (is_Some (translations st !! lang))
    then with_t (get_ref (translations st) lang) st
    else st in
  if browser st1 then setItem (localStorageKey config) lang st1 else st1.

(** [locale.set(new_value)].  The store has the subscriber above from its
    creation on, so a value that passes the change test is stored and
    delivered to it at once. *)
Definition locale_set (new_value : string) : M unit :=
  value ← gets locale;
  when (safe_not_equal value new_value)
    (modify (with_locale new_value) ;; modify (locale_subscriber new_value)).

(** [locale.update(fn)], that is [set(fn(value))]. *)
Definition locale_update (fn : string → M string) : M unit :=
  value ← gets locale;
  new_value ← fn value;
  locale_set new_value.

(** [createI18nStore(config)]: the table, the initial language, the two
    stores, and the subscription, which runs the callback once with the
    initial language. *)
Definition createI18nStore (env : Env) : State :=
  let translations := makeTranslation (supportedLocales config)
                        (initialTranslations config) in
  let initialLanguage := getInitLocale config env in
  locale_subscriber initialLanguage
    {| browser := window_defined env;
       localStorage := stored env;
       setItem_calls := [];
       console_warn := [];
       translations := translations;
       locale := initialLanguage;
       _t := get_ref translations initialLanguage |}.

Definition not_found_message (key : string) : string :=
  "[i18n] Translation for key " +:+ dquote +:+ key +:+ dquote
    +:+ " not found. Using key as fallback.".

(** The function held by the derived store [t].  The store recomputes it
    at every [_t.set], so the function a caller reads from the store looks
    keys up in the [Map] that [_t] holds at the time of the call. *)
Definition t (key : string) (replacements : option (gmap string jsval)) : M string :=
  view ← gets current_view;
  match view with
  | None => throw TypeError
  | Some map =>
      translation ←
        match map !! key with
        | Some translation => mret translation
        | None =>
            when (devLogs_enabled config) (modify (warn (not_found_message key))) ;;
            mret key
        end;
      mret (match replacements with
            | Some replacements => interpolate replacements translation
            | None => translation
            end)
  end.

Definition empty_lang_message : string :=
  "[i18n] Initialization failed: " +:+ EmptyString +:+ " is not a lang.".

Definition unsupported_lang_message (lang : string) : string :=
  "[i18n] Initialization failed: Language " +:+ dquote +:+ lang +:+ dquote
    +:+ " is not in supportedLocales ["
    +:+ join ", " (supportedLocales config) +:+ "].".

Definition setLocale (lang : lang_arg) : M unit :=
  match lang with
  | LNull | LUndefined => mret tt
  | LString lang =>
      if negb (truthy lang) then
        when (devLogs_enabled config) (modify (warn empty_lang_message))
      else if includes (supportedLocales config) lang then locale_set lang
      else when (devLogs_enabled config) (modify (warn (unsupported_lang_message lang)))
  end.

(** The body of the outer [forEach] of [extendTranslations]: the inner
    [forEach] sets every pair of [valueMap] in [existingMap].  When the table
    has no [Map] for [lang], [existingMap] is [undefined] and the first
    [existingMap.set] throws. *)
Definition merge_lang (lang : string) (valueMap : gmap string string)
    (acc : result FullTranslationMap) : result FullTranslationMap :=
  table ← acc;
  match table !! lang with
  | Some existingMap =>
      Ok (<[lang := map_fold (λ key value map, <[key := value]> map)
                      existingMap valueMap]> table)
  | None => if bool_decide (valueMap = ∅) then Ok table else Throw TypeError
  end.

Definition merge_translations (newTranslationMap table : FullTranslationMap)
    : result FullTranslationMap :=
  map_fold merge_lang (Ok table) newTranslationMap.

(** [extendTranslations(newTranslations)].  The grouped summary it prints
    with [console.group] and [console.log] when [devLogs] is set only reads
    the sizes of the new maps and is left out. *)
Definition extendTranslations (newTranslations : list PartialTranslationEntryMap)
    : M unit :=
  let newTranslationMap := makeTranslation (supportedLocales config) newTranslations in
  table ← gets translations;
  merged ← lift (merge_translations newTranslationMap table);
  modify (with_translations merged) ;;
  locale_update (λ lang,
    table ← gets translations;
    modify (with_t (get_ref table lang)) ;;
    mret lang).

(** A call on the object [createI18nStore] returns. *)
Inductive call : Type :=
| SetLocale (lang : lang_arg)
| LocaleSet (lang : string)
| ExtendTranslations (newTranslations : list PartialTranslationEntryMap).

Definition perform (c : call) : M unit :=
  match c with
  | SetLocale lang => setLocale lang
  | LocaleSet lang => locale_set lang
  | ExtendTranslations newTranslations => extendTranslations newTranslations
  end.

Fixpoint perform_all (calls : list call) : M unit :=
  match calls with
  | [] => mret tt
  | c :: rest => perform c ;; perform_all rest
  end.

(** What holds of the state of a store however it was driven: the table
    has a [Map] for exactly the supported locales, and where there is a
    window the storage holds the value of [locale]. *)
Definition store_ok (st : State) : Prop :=
  (∀ lang, is_Some (translations st !! lang) ↔ lang ∈ supportedLocales config)
  ∧ (browser st = true →
     localStorage st !! localStorageKey config = Some (locale st)).

(** The [_t] store points at the [Map] of the active locale, which is a
    supported one. *)
Definition view_ok (st : State) : Prop :=
  store_ok st ∧ _t st = Some (locale st)
  ∧ locale st ∈ supportedLocales config.

(** A call that writes to the locale store directly does so with a
    supported locale. *)
Definition writes_supported (c : call) : Prop :=
  match c with
  | LocaleSet lang => lang ∈ supportedLocales config
  | SetLocale _ | ExtendTranslations _ => True
  end.

End store.

(** Unfolds the monad of the operations down to state passing. *)
Ltac run_M :=
  unfold mbind, M_bind, mret, M_ret, gets, modify, when, lift, throw;
  cbn beta iota.

(** What a call returned, without the state it left. *)
Definition returned {A} (r : result (A * State)) : result A :=
  match r with
  | Ok (a, _) => Ok a
  | Throw e => Throw e
  end.

End I18n.
Export I18n.

(** ** The behaviour the specification describes, in its own words *)

Module Spec.

(** The base subtag of a language tag: the text before its first hyphen. *)
Fixpoint base_subtag (tag : string) : string :=
  match tag with
  | EmptyString => EmptyString
  | String c rest =>
      if Ascii.eqb c "-"%char then EmptyString else String c (base_subtag rest)
  end.

(** What one preferred tag resolves to: itself on a full match, else its
    base subtag on a base match. *)
Definition tag_match (supported : list string) (tag : string) : option string :=
  if bool_decide (tag ∈ supported) then Some tag
  else if bool_decide (base_subtag tag ∈ supported) then Some (base_subtag tag)
  else None.

(** The first tag, in order, with either form of match. *)
Definition first_tag_match (supported : list string) (tags : list string)
    : option string :=
  head (omap (tag_match supported) tags).

(** The tags the environment prefers: the list when there is one, else the
    single preferred language when it is present (a string that is not
    empty), else nothing. *)
Definition preferred_tags (env : Env) : list string :=
  match navigator_languages env with
  | Some tags => tags
  | None =>
      match navigator_language env with
      | Some tag => if bool_decide (tag = EmptyString) then [] else [tag]
      | None => []
      end
  end.

(** The persisted locale, when it is not empty and is supported. *)
Definition persisted_locale (config : I18nConfig) (env : Env) : option string :=
  value ← stored env !! localStorageKey config;
  if bool_decide (value ≠ EmptyString ∧ value ∈ supportedLocales config)
  then Some value else None.

(** The priority order of the resolver, first match wins. *)
Definition resolve (config : I18nConfig) (env : Env) : string :=
  if window_defined env then
    match persisted_locale config env with
    | Some lang => lang
    | None =>
        match first_tag_match (supportedLocales config) (preferred_tags env) with
        | Some lang => lang
        | None => defaultLocale config
        end
    end
  else defaultLocale config.

(** All pairs of the batches, in the order the builder meets them:
    (key, locale, string). *)
Definition all_pairs (batches : list PartialTranslationEntryMap)
    : list (string * string * string) :=
  entry ← batches;
  '(key, perLocale) ← entry;
  '(lang, value) ← perLocale;
  [(key, lang, value)].

(** The key to string mapping the pairs write for one locale, starting
    from [start]: each pair of that locale sets its key, in order. *)
Definition write_pairs (lang : string) (start : gmap string string)
    (pairs : list (string * string * string)) : gmap string string :=
  foldl (λ map '(key, l, value),
           if bool_decide (l = lang) then <[key := value]> map else map)
        start pairs.

(** The string of the last pair written for (key, locale), if any. *)
Definition last_write (lang key : string)
    (pairs : list (string * string * string)) : option string :=
  last (omap (λ '(k, l, value),
                if bool_decide (k = key ∧ l = lang) then Some value else None)
             pairs).

(** The table the builder is to return: one mapping per supported locale,
    holding what the pairs of that locale wrote; nothing for other
    locales. *)
Definition build_lookup (supported : list string)
    (batches : list PartialTranslationEntryMap) (lang : string)
    : option (gmap string string) :=
  if bool_decide (lang ∈ supported)
  then Some (write_pairs lang ∅ (all_pairs batches))
  else None.

End Spec.

(** ** The configuration of the test suite *)

Module Fixture.

Definition test_translations : list PartialTranslationEntryMap :=
  [ [ ("hello", [("en", "Hello"); ("es", "Hola"); ("zh-TW", "你好")]);
      ("welcome", [("en", "Welcome, {name}!"); ("es", "Bienvenido, {name}!")]);
      ("bye", [("en", "Goodbye"); ("es", "Adiós")]) ] ].

Definition test_config : I18nConfig :=
  {| supportedLocales := ["en"; "es"; "zh-TW"];
     defaultLocale := "en";
     initialTranslations := test_translations;
     localStorageKey := "test-lang-key";
     devLogs := Some true |}.

(** A browser whose storage is empty and that prefers en-US, then en. *)
Definition browser_env : Env :=
  {| window_defined := true;
     stored := ∅;
     navigator_languages := Some ["en-US"; "en"];
     navigator_language := Some "en-US" |}.

(** The store of the suite, just created in that browser. *)
Definition fresh_store : State := createI18nStore test_config browser_env.

(** Server-side rendering: no window. *)
Definition ssr_env : Env :=
  {| window_defined := false;
     stored := ∅;
     navigator_languages := None;
     navigator_language := None |}.

(** One locale, and one key that is written as A at construction (the
    override example of the specification extends it with B). *)
Definition override_config : I18nConfig :=
  {| supportedLocales := ["en"];
     defaultLocale := "en";
     initialTranslations := [[("k", [("en", "A")])]];
     localStorageKey := "lang";
     devLogs := None |}.

(** One locale, and one key whose stored string is empty. *)
Definition blank_config : I18nConfig :=
  {| supportedLocales := ["en"];
     defaultLocale := "en";
     initialTranslations := [[("blank", [("en", EmptyString)])]];
     localStorageKey := "lang";
     devLogs := Some true |}.

(** One locale, and one text whose placeholder is named like a property
    that every object inherits. *)
Definition credits_config : I18nConfig :=
  {| supportedLocales := ["en"];
     defaultLocale := "en";
     initialTranslations := [[("credits", [("en", "Made by {constructor}")])]];
     localStorageKey := "lang";
     devLogs := None |}.

Definition credits_store : State := createI18nStore credits_config browser_env.

End Fixture.

(** ** The rest of the module *)

(** [defineI18nConfig(config)]: at run time, the configuration it is given;
    what it adds is the type check of [defaultLocale]. *)
Definition defineI18nConfig (config : I18nConfig) : I18nConfig := config.

(** [st] is the state of the store created from [config] in [env], after
    [calls] were made on it. *)
Definition reaches (config : I18nConfig) (env : Env) (calls : list call)
    (st : State) : Prop :=
  perform_all config calls (createI18nStore config env) = Ok (tt, st).

(** The string the table holds for a key in a locale, if any. *)
Definition stored_translation (table : FullTranslationMap)
    (lang key : string) : option string :=
  table !! lang ≫= (.!! key).

(** No pair of the batches names the locale. *)
Definition writes_nothing_for (lang : string)
    (batches : list PartialTranslationEntryMap) : Prop :=
  ∀ key l value, (key, l, value) ∈ Spec.all_pairs batches → l ≠ lang.

(** The summary [extendTranslations] prints when [devLogs] is set: the
    block between the merge and the final [locale.update].  It reads the new
    table only, so it is a function of the configuration and of the
    batches. *)
Module Diagnostics.

(** A call of [console.group], [console.log] or [console.groupEnd]. *)
Inductive console_call : Type :=
| Group (label : string)
| Log (message : string)
| GroupEnd.

(** The keys of the [Map] that [makeTranslation] fills with
    [supportedLocales.forEach((lang) => result.set(lang, new Map()))], in
    the order [forEach] visits them: a [Map] keeps its keys in the order of
    their first insertion, and [set] on a key it has leaves the key in
    place. *)
Definition insertion_order (langs : list string) : list string :=
  foldl (λ (keys : list string) lang,
           if bool_decide (lang ∈ keys) then keys else (keys ++ [lang])%list)
        [] langs.

(** The message for one locale: the template literal with [count] and
    [lang]. *)
Definition count_message (count : nat) (lang : string) : string :=
  pretty count +:+ " keys added/updated for lang '" +:+ lang +:+ "'.".

(** One round of the second [newTranslationMap.forEach]: a line and a
    larger total when [valueMap.size] is positive. *)
Definition count_lang (newTranslationMap : FullTranslationMap)
    (acc : list console_call * nat) (lang : string) : list console_call * nat :=
  let '(lines, totalCount) := acc in
  match newTranslationMap !! lang with
  | Some valueMap =>
      let count := size valueMap in
      if bool_decide (0 < count)
      then ((lines ++ [Log (count_message count lang)])%list, totalCount + count)
      else (lines, totalCount)
  | None => (lines, totalCount)
  end.

Definition extendTranslations_summary (config : I18nConfig)
    (newTranslations : list PartialTranslationEntryMap) : list console_call :=
  if devLogs_enabled config then
    let newTranslationMap :=
      makeTranslation (supportedLocales config) newTranslations in
    let '(lines, totalCount) :=
      foldl (count_lang newTranslationMap) ([], 0)
        (insertion_order (supportedLocales config)) in
    ([Group "[i18n] Extended translations..."]
       ++ lines
       ++ (if bool_decide (totalCount = 0)
           then [Log "No new translations were added."] else [])
       ++ [GroupEnd])%list
  else [].

(** The keys the batches write for a locale, as the new table holds them. *)
Definition new_keys (lang : string)
    (batches : list PartialTranslationEntryMap) : gmap string string :=
  Spec.write_pairs lang ∅ (Spec.all_pairs batches).

End Diagnostics.

(** The batches of the [extendTranslations] calls among [calls], in the
    order of the calls. *)
Definition extension_batches (calls : list call)
    : list PartialTranslationEntryMap :=
  c ← calls;
  match c with
  | ExtendTranslations newTranslations => newTranslations
  | SetLocale _ | LocaleSet _ => []
  end.

(** The names the pattern of [t] captures in a text, in the order of the
    scan: the recursion is that of [replace_from], collecting the capture
    group where [replace_from] calls the callback. *)
Fixpoint names_from (skip : nat) (s : string) : list string :=
  match s with
  | EmptyString => []
  | String c s' =>
      match skip with
      | S k => names_from k s'
      | O =>
          match exec_placeholder s with
          | Some (name, _) => name :: names_from (S (String.length name)) s'
          | None => names_from 0 s'
          end
      end
  end.

Definition placeholder_names (s : string) : list string := names_from 0 s.

(** The callback of [t] leaves the token of [name] in place: reading [name]
    from the object, own properties and inherited ones, gives [undefined]
    or [null]. *)
Definition unbound (replacements : gmap string jsval) (name : string) : Prop :=
  match get_property replacements name with
  | JNull | JUndefined => True
  | _ => False
  end.

(** The state [calls] leave the store created from [config] in [env] in
    (the fresh store, should one of them throw). *)
Definition state_after (config : I18nConfig) (env : Env) (calls : list call)
    : State :=
  match perform_all config calls (createI18nStore config env) with
  | Ok (_, st) => st
  | Throw _ => createI18nStore config env
  end.

(** What the translator is to return for a text found or fallen back to. *)
Definition rendered (replacements : option (gmap string jsval))
    (text : string) : string :=
  match replacements with
  | Some replacements => interpolate replacements text
  | None => text
  end.

(** * Properties *)

(** ** Strings *)

Section strings.

(** stdpp keeps [append] from unfolding under [simpl]; its two equations
    are used as rewrite rules instead. *)
Lemma append_nil_l (s : string) : EmptyString +:+ s = s.
Proof. reflexivity. Qed.

Lemma append_cons (c : ascii) (s s' : string) :
  String c s +:+ s' = String c (s +:+ s').
Proof. reflexivity. Qed.

Lemma append_empty_r (s : string) : s +:+ EmptyString = s.
Proof.
  induction s as [|c s IH]; [done|]. by rewrite append_cons, IH.
Qed.

Lemma append_assoc (a b c : string) : (a +:+ b) +:+ c = a +:+ (b +:+ c).
Proof.
  induction a as [|x a IH]; [done|]. by rewrite !append_cons, IH.
Qed.

Lemma length_append (a b : string) :
  String.length (a +:+ b) = String.length a + String.length b.
Proof.
  induction a as [|x a IH]; [done|]. rewrite append_cons. simpl. by rewrite IH.
Qed.

Lemma ascii_eqb_true (a b : ascii) : Ascii.eqb a b = true ↔ a = b.
Proof. apply Ascii.eqb_eq. Qed.

(** [split] never returns the empty array, and its first piece is the text
    before the first separator. *)
Lemma split_head (s : string) :
  head (split "-"%char s) = Some (Spec.base_subtag s).
Proof.
  induction s as [|c s IH]; simpl; [done|].
  destruct (Ascii.eqb c "-"%char); [done|].
  destruct (split "-"%char s) as [|w ws]; simpl in *; [done|].
  by injection IH as ->.
Qed.

End strings.

Create Rewrite HintDb append.
#[local] Hint Rewrite append_nil_l append_cons : append.


(** ** The placeholder scanner *)

Section template.

Lemma brace_free_nil : brace_free EmptyString.
Proof. intros c Hc. simpl in Hc. by apply elem_of_nil in Hc. Qed.

Lemma brace_free_cons (c : ascii) (name : string) :
  brace_free (String c name) ↔ is_brace c = false ∧ brace_free name.
Proof.
  unfold brace_free. simpl. split.
  - intros H. split; [apply H; left | intros d Hd; apply H; by right].
  - intros [Hc H] d Hd. apply elem_of_cons in Hd as [->|Hd]; [done | by apply H].
Qed.

(** A boolean test that decides [brace_free] on a given name. *)
Lemma brace_free_check (name : string) :
  forallb (λ c, negb (is_brace c)) (list_ascii_of_string name) = true →
  brace_free name.
Proof.
  induction name as [|c name IH]; simpl; [intros _; apply brace_free_nil|].
  intros [Hc H]%andb_prop. apply brace_free_cons. split; [|by apply IH].
  by destruct (is_brace c).
Qed.

(** What the greedy class consumes: a brace-free prefix, up to the end of
    the text or the first brace. *)
Lemma span_name_sound (s name rest : string) :
  span_name s = (name, rest) →
  s = name +:+ rest ∧ brace_free name.
Proof.
  revert name rest. induction s as [|c s IH]; intros name rest; simpl.
  - intros [= <- <-]. split; [done | apply brace_free_nil].
  - destruct (is_brace c) eqn:Hc.
    + intros [= <- <-]. split; [done | apply brace_free_nil].
    + destruct (span_name s) as [n r]. intros [= <- <-].
      destruct (IH n r eq_refl) as [-> Hn]. split; [done|].
      by apply brace_free_cons.
Qed.

Lemma span_name_complete (name : string) (d : ascii) (rest : string) :
  brace_free name → is_brace d = true →
  span_name (name +:+ String d rest) = (name, String d rest).
Proof.
  intros Hname Hd. induction name as [|c name IH]; autorewrite with append; simpl.
  - by rewrite Hd.
  - apply brace_free_cons in Hname as [Hc Hname].
    by rewrite Hc, (IH Hname).
Qed.

(** The pattern matches at the start of a text exactly when the text starts
    with a token, and then captures its name. *)
Lemma exec_placeholder_token (name rest : string) :
  name ≠ EmptyString → brace_free name →
  exec_placeholder (token name +:+ rest) = Some (name, rest).
Proof.
  intros Hne Hname. unfold token. autorewrite with append.
  rewrite append_assoc. autorewrite with append. simpl.
  rewrite span_name_complete by done.
  by destruct name.
Qed.

Lemma exec_placeholder_sound (s name rest : string) :
  exec_placeholder s = Some (name, rest) →
  s = token name +:+ rest ∧ name ≠ EmptyString ∧ brace_free name.
Proof.
  destruct s as [|c s]; simpl; [done|].
  destruct (Ascii.eqb c "{"%char) eqn:Hc; [|done].
  apply ascii_eqb_true in Hc as ->.
  destruct (span_name s) as [n r] eqn:Hspan.
  destruct n as [|x n]; [done|]. destruct r as [|d r]; [done|].
  destruct (Ascii.eqb d "}"%char) eqn:Hd; [|done].
  apply ascii_eqb_true in Hd as ->. intros [= <- <-].
  apply span_name_sound in Hspan as [-> Hn].
  split; [|done]. unfold token. autorewrite with append.
  rewrite append_assoc. by autorewrite with append.
Qed.

Lemma exec_placeholder_none (c : ascii) (s : string) :
  (∀ name rest, name ≠ EmptyString → brace_free name →
     String c s ≠ token name +:+ rest) →
  exec_placeholder (String c s) = None.
Proof.
  intros Hno. destruct (exec_placeholder (String c s)) as [[name rest]|] eqn:He;
    [|done].
  apply exec_placeholder_sound in He as (Heq & Hne & Hname).
  by destruct (Hno name rest Hne Hname).
Qed.

(** Passing over the rest of a match. *)
Lemma replace_from_skip (callback : string → string → string)
    (passed rest : string) :
  replace_from callback (String.length passed) (passed +:+ rest)
  = replace_from callback 0 rest.
Proof.
  induction passed as [|c passed IH]; autorewrite with append; simpl; [by destruct rest | done].
Qed.

Lemma replace_from_0 (callback : string → string → string)
    (c : ascii) (s : string) :
  replace_from callback 0 (String c s)
  = match exec_placeholder (String c s) with
    | Some (name, _) =>
        callback (token name) name
          +:+ replace_from callback (S (String.length name)) s
    | None => String c (replace_from callback 0 s)
    end.
Proof. reflexivity. Qed.

(** The scan, unfolded at a token and at any other character. *)
Lemma replace_placeholders_token (callback : string → string → string)
    (name rest : string) :
  name ≠ EmptyString → brace_free name →
  replace_placeholders callback (token name +:+ rest)
  = callback (token name) name +:+ replace_placeholders callback rest.
Proof.
  intros Hne Hname. unfold replace_placeholders.
  pose proof (exec_placeholder_token name rest Hne Hname) as He.
  assert (token name +:+ rest = String "{" ((name +:+ "}") +:+ rest)) as Htok.
  { unfold token. autorewrite with append. by rewrite append_assoc. }
  rewrite Htok in *. rewrite replace_from_0, He. f_equal.
  replace (S (String.length name)) with (String.length (name +:+ "}")).
  - apply replace_from_skip.
  - rewrite length_append. simpl. lia.
Qed.

Lemma replace_placeholders_char (callback : string → string → string)
    (c : ascii) (s : string) :
  exec_placeholder (String c s) = None →
  replace_placeholders callback (String c s)
  = String c (replace_placeholders callback s).
Proof. unfold replace_placeholders. rewrite replace_from_0. by intros ->. Qed.

End template.

(** ** The locale resolver *)

Section resolver.

Lemma scan_preferredLangs_first_match (supported tags : list string) :
  scan_preferredLangs supported tags = Spec.first_tag_match supported tags.
Proof.
  unfold Spec.first_tag_match.
  induction tags as [|tag tags IH]; [done|].
  simpl. rewrite split_head. unfold Spec.tag_match, includes.
  destruct (bool_decide (tag ∈ supported)); [done|].
  destruct (bool_decide (Spec.base_subtag tag ∈ supported)); [done|].
  exact IH.
Qed.

Lemma stored_valid_persisted (supported : list string) (value : string) :
  truthy value && includes supported value
  = bool_decide (value ≠ EmptyString ∧ value ∈ supported).
Proof.
  unfold truthy, includes. apply eq_true_iff_eq.
  by rewrite andb_true_iff, negb_true_iff, bool_decide_eq_false, !bool_decide_eq_true.
Qed.

End resolver.

(** ** The table builder *)

Section table.

Implicit Types (table : FullTranslationMap) (lang key : string).

Lemma init_lookup (supported : list string) table lang :
  foldl (λ result l, <[l := ∅]> result) table supported !! lang
  = if bool_decide (lang ∈ supported) then Some ∅ else table !! lang.
Proof.
  revert table. induction supported as [|l supported IH]; intros table; simpl.
  - done.
  - rewrite IH. destruct (decide (lang ∈ supported)) as [Hin|Hout].
    + rewrite !bool_decide_eq_true_2; [done | by right | done].
    + rewrite (bool_decide_eq_false_2 _ Hout).
      destruct (decide (l = lang)) as [->|Hne].
      * rewrite lookup_insert_eq, bool_decide_eq_true_2; [done | left].
      * rewrite lookup_insert_ne by done.
        rewrite bool_decide_eq_false_2; [done|].
        intros [->|?]%elem_of_cons; done.
Qed.

Lemma write_pairs_app lang (start : gmap string string)
    (ps qs : list (string * string * string)) :
  Spec.write_pairs lang start (ps ++ qs)%list
  = Spec.write_pairs lang (Spec.write_pairs lang start ps) qs.
Proof. apply foldl_app. Qed.

Lemma set_translation_lookup key table (l value : string) lang :
  set_translation key table (l, value) !! lang
  = (λ map, Spec.write_pairs lang map [(key, l, value)]) <$> table !! lang.
Proof.
  unfold set_translation, Spec.write_pairs. simpl.
  destruct (decide (l = lang)) as [->|Hne].
  - rewrite bool_decide_eq_true_2 by done.
    destruct (table !! lang) as [map|] eqn:Hl; simpl.
    + by rewrite lookup_insert_eq.
    + by rewrite Hl.
  - rewrite bool_decide_eq_false_2 by done.
    destruct (table !! l) as [map|]; [rewrite lookup_insert_ne by done|];
      by destruct (table !! lang).
Qed.

Lemma all_pairs_nil : Spec.all_pairs [] = [].
Proof. reflexivity. Qed.

Lemma all_pairs_cons (entry : PartialTranslationEntryMap)
    (batches : list PartialTranslationEntryMap) :
  Spec.all_pairs (entry :: batches)
  = (Spec.all_pairs [entry] ++ Spec.all_pairs batches)%list.
Proof. unfold Spec.all_pairs. simpl. by rewrite app_nil_r. Qed.

Lemma all_pairs_app (batches more : list PartialTranslationEntryMap) :
  Spec.all_pairs (batches ++ more)
  = (Spec.all_pairs batches ++ Spec.all_pairs more)%list.
Proof.
  induction batches as [|entry rest IH]; [done|].
  cbn [app]. rewrite (all_pairs_cons entry rest), (all_pairs_cons entry (rest ++ more)), IH.
  by rewrite app_assoc.
Qed.

Lemma all_pairs_entry_cons key (partialEntry : PartialEntry)
    (entry : PartialTranslationEntryMap) :
  Spec.all_pairs [(key, partialEntry) :: entry]
  = (Spec.all_pairs [[(key, partialEntry)]] ++ Spec.all_pairs [entry])%list.
Proof. unfold Spec.all_pairs. simpl. by rewrite !app_nil_r. Qed.

Lemma all_pairs_pair_cons key (l value : string) (partialEntry : PartialEntry) :
  Spec.all_pairs [[(key, (l, value) :: partialEntry)]]
  = (key, l, value) :: Spec.all_pairs [[(key, partialEntry)]].
Proof. unfold Spec.all_pairs. simpl. by rewrite !app_nil_r. Qed.

Lemma add_partialEntry_lookup table key (partialEntry : PartialEntry) lang :
  add_partialEntry table (key, partialEntry) !! lang
  = (λ map, Spec.write_pairs lang map
              (Spec.all_pairs [[(key, partialEntry)]])) <$> table !! lang.
Proof.
  unfold add_partialEntry.
  revert table. induction partialEntry as [|[l value] rest IH]; intros table.
  - cbn [foldl]. destruct (table !! lang); reflexivity.
  - cbn [foldl]. rewrite IH, set_translation_lookup, all_pairs_pair_cons.
    destruct (table !! lang); reflexivity.
Qed.

Lemma add_entry_lookup table (entry : PartialTranslationEntryMap) lang :
  add_entry table entry !! lang
  = (λ map, Spec.write_pairs lang map (Spec.all_pairs [entry])) <$> table !! lang.
Proof.
  unfold add_entry.
  revert table. induction entry as [|[key partialEntry] rest IH]; intros table.
  - cbn [foldl]. destruct (table !! lang); reflexivity.
  - cbn [foldl].
    rewrite (all_pairs_entry_cons key partialEntry rest), IH, add_partialEntry_lookup.
    destruct (table !! lang) as [map|]; [|done].
    cbn [fmap option_fmap option_map]. by rewrite write_pairs_app.
Qed.

Lemma add_entries_lookup table (batches : list PartialTranslationEntryMap) lang :
  foldl add_entry table batches !! lang
  = (λ map, Spec.write_pairs lang map (Spec.all_pairs batches)) <$> table !! lang.
Proof.
  revert table. induction batches as [|entry rest IH]; intros table.
  - cbn [foldl]. destruct (table !! lang); reflexivity.
  - cbn [foldl]. rewrite (all_pairs_cons entry rest), IH, add_entry_lookup.
    destruct (table !! lang) as [map|]; [|done].
    cbn [fmap option_fmap option_map]. by rewrite write_pairs_app.
Qed.

Lemma makeTranslation_lookup (supported : list string)
    (batches : list PartialTranslationEntryMap) lang :
  makeTranslation supported batches !! lang
  = Spec.build_lookup supported batches lang.
Proof.
  unfold makeTranslation, Spec.build_lookup.
  rewrite add_entries_lookup, init_lookup, lookup_empty.
  by destruct (bool_decide (lang ∈ supported)).
Qed.

Lemma makeTranslation_app (supported : list string)
    (batches more : list PartialTranslationEntryMap) :
  makeTranslation supported (batches ++ more)%list
  = foldl add_entry (makeTranslation supported batches) more.
Proof. unfold makeTranslation. apply foldl_app. Qed.

(** Last write wins: a key reads as the last string written for it, and as
    before when nothing was written for it. *)
Lemma write_pairs_lookup lang (start : gmap string string)
    (pairs : list (string * string * string)) key :
  Spec.write_pairs lang start pairs !! key
  = match Spec.last_write lang key pairs with
    | Some value => Some value
    | None => start !! key
    end.
Proof.
  unfold Spec.write_pairs, Spec.last_write.
  revert start. induction pairs as [|[[k l] value] rest IH]; intros start; [done|].
  simpl. rewrite IH. clear IH.
  destruct (decide (l = lang)) as [->|Hl].
  - rewrite (bool_decide_eq_true_2 (lang = lang)) by done.
    destruct (decide (k = key)) as [->|Hk].
    + rewrite bool_decide_eq_true_2 by done. rewrite last_cons.
      destruct (last _); [done | by rewrite lookup_insert_eq].
    + rewrite bool_decide_eq_false_2 by (by intros [? _]).
      destruct (last _); [done | by rewrite lookup_insert_ne].
  - rewrite (bool_decide_eq_false_2 (l = lang)) by done.
    rewrite bool_decide_eq_false_2 by (by intros [_ ?]). done.
Qed.

Lemma write_pairs_union lang (start : gmap string string)
    (pairs : list (string * string * string)) :
  Spec.write_pairs lang start pairs = Spec.write_pairs lang ∅ pairs ∪ start.
Proof.
  apply map_eq. intros key.
  rewrite lookup_union, !write_pairs_lookup, lookup_empty.
  destruct (Spec.last_write lang key pairs); [|by destruct (start !! key)].
  by destruct (start !! key).
Qed.

End table.

(** ** Merging into the table *)

Section merge.

Implicit Types (table : FullTranslationMap) (lang key : string).

(** The inner [forEach] of [extendTranslations]: the new pairs over the
    existing ones. *)
Lemma set_all_union (existingMap valueMap : gmap string string) :
  map_fold (λ key value map, <[key := value]> map) existingMap valueMap
  = valueMap ∪ existingMap.
Proof.
  apply (map_fold_weak_ind (λ r m, r = m ∪ existingMap)).
  - by rewrite (left_id_L ∅ (∪)).
  - intros key value m r _ ->. by rewrite insert_union_l.
Qed.

(** The outer [forEach]: it cannot throw when the table has a [Map] for
    every locale of the new table, and then merges locale by locale. *)
Lemma merge_translations_lookup (newTranslationMap table : FullTranslationMap) :
  (∀ lang, is_Some (newTranslationMap !! lang) → is_Some (table !! lang)) →
  ∃ merged,
    merge_translations newTranslationMap table = Ok merged
    ∧ ∀ lang, merged !! lang
        = match newTranslationMap !! lang with
          | Some valueMap => (valueMap ∪.) <$> table !! lang
          | None => table !! lang
          end.
Proof.
  unfold merge_translations.
  apply (map_fold_weak_ind (λ r m,
    (∀ lang, is_Some (m !! lang) → is_Some (table !! lang)) →
    ∃ merged, r = Ok merged
      ∧ ∀ lang, merged !! lang
          = match m !! lang with
            | Some valueMap => (valueMap ∪.) <$> table !! lang
            | None => table !! lang
            end)).
  - intros _. exists table. split; [done|]. intros lang. by rewrite lookup_empty.
  - intros l valueMap m r Hfresh IH Hdom.
    destruct IH as (merged & -> & Hmerged).
    { intros lang Hlang. apply Hdom.
      destruct (decide (l = lang)) as [->|Hne];
        [by rewrite lookup_insert_eq | by rewrite lookup_insert_ne]. }
    destruct (Hdom l) as [existingMap Hexisting];
      [by rewrite lookup_insert_eq|].
    unfold merge_lang. cbn [mbind result_bind].
    rewrite Hmerged, Hfresh, Hexisting, set_all_union.
    eexists. split; [done|]. intros lang.
    destruct (decide (l = lang)) as [<-|Hne].
    + by rewrite !lookup_insert_eq, Hexisting.
    + by rewrite !lookup_insert_ne, Hmerged.
Qed.

Lemma merge_makeTranslation (supported : list string)
    (batches more : list PartialTranslationEntryMap) :
  merge_translations (makeTranslation supported more)
    (makeTranslation supported batches)
  = Ok (makeTranslation supported (batches ++ more)).
Proof.
  destruct (merge_translations_lookup (makeTranslation supported more)
              (makeTranslation supported batches)) as (merged & -> & Hmerged).
  { intros lang. rewrite !makeTranslation_lookup. unfold Spec.build_lookup.
    by destruct (bool_decide (lang ∈ supported)). }
  f_equal. apply map_eq. intros lang.
  rewrite Hmerged, makeTranslation_app, add_entries_lookup, !makeTranslation_lookup.
  unfold Spec.build_lookup.
  destruct (bool_decide (lang ∈ supported)); [|done].
  cbn [fmap option_fmap option_map]. f_equal.
  by rewrite (write_pairs_union lang (Spec.write_pairs lang ∅ (Spec.all_pairs batches))).
Qed.

End merge.

(** ** The stores *)

Section stores.

Variable config : I18nConfig.

Implicit Types (st : State) (lang key : string).

Lemma locale_set_same st :
  locale_set config (locale st) st = Ok (tt, st).
Proof.
  unfold locale_set, safe_not_equal. run_M.
  by rewrite bool_decide_eq_true_2.
Qed.

Lemma locale_set_changed lang st :
  lang ≠ locale st →
  locale_set config lang st
  = Ok (tt, locale_subscriber config lang (with_locale lang st)).
Proof.
  intros Hne. unfold locale_set, safe_not_equal. run_M.
  by rewrite bool_decide_eq_false_2.
Qed.

Lemma locale_subscriber_fields lang st :
  let st' := locale_subscriber config lang st in
  translations st' = translations st
  ∧ locale st' = locale st
  ∧ browser st' = browser st
  ∧ console_warn st' = console_warn st
  ∧ _t st' = (if bool_decide (is_Some (translations st !! lang))
              then Some lang else _t st)
  ∧ localStorage st' = (if browser st
                        then <[localStorageKey config := lang]> (localStorage st)
                        else localStorage st)
  ∧ setItem_calls st' = (if browser st
                         then (setItem_calls st ++ [(localStorageKey config, lang)])%list
                         else setItem_calls st).
Proof.
  cbv zeta. unfold locale_subscriber, get_ref.
  destruct (translations st !! lang) as [map|] eqn:Hlang.
  - rewrite bool_decide_eq_true_2 by done. cbn [browser with_t].
    destruct (browser st) eqn:Hb; repeat split; done.
  - rewrite bool_decide_eq_false_2 by (by intros [? ?]).
    destruct (browser st) eqn:Hb; repeat split; done.
Qed.

Lemma extendTranslations_merged
    (newTranslations : list PartialTranslationEntryMap) st merged :
  merge_translations (makeTranslation (supportedLocales config) newTranslations)
    (translations st) = Ok merged →
  extendTranslations config newTranslations st
  = Ok (tt, with_t (get_ref merged (locale st)) (with_translations merged st)).
Proof.
  intros Hmerge. unfold extendTranslations, locale_update. run_M.
  rewrite Hmerge.
  exact (locale_set_same (with_t (get_ref merged (locale st))
                            (with_translations merged st))).
Qed.

End stores.

(** ** What every reachable state satisfies *)

Section invariants.

Variable config : I18nConfig.

Implicit Types (st : State) (lang key : string).

Lemma makeTranslation_is_Some (batches : list PartialTranslationEntryMap) lang :
  is_Some (makeTranslation (supportedLocales config) batches !! lang)
  ↔ lang ∈ supportedLocales config.
Proof.
  rewrite makeTranslation_lookup. unfold Spec.build_lookup.
  case_bool_decide as Hin; split; intros H; try done.
Qed.

Lemma createI18nStore_ok (env : Env) : store_ok config (createI18nStore config env).
Proof.
  unfold createI18nStore.
  match goal with |- store_ok _ (locale_subscriber _ ?l ?s) =>
    destruct (locale_subscriber_fields config l s)
      as (Htr & Hloc & Hbr & _ & _ & Hls & _) end.
  split.
  - intros lang. rewrite Htr. apply makeTranslation_is_Some.
  - rewrite Hls, Hloc, Hbr. cbn [browser localStorage locale].
    intros ->. by rewrite lookup_insert_eq.
Qed.

End invariants.

Section calls.

Variable config : I18nConfig.

Implicit Types (st : State) (lang key : string).

(** A direct write never throws; it keeps the table and the window flag. *)
Lemma locale_set_ok lang st :
  store_ok config st →
  ∃ st', locale_set config lang st = Ok (tt, st')
    ∧ store_ok config st'
    ∧ browser st' = browser st
    ∧ translations st' = translations st
    ∧ locale st' = lang.
Proof.
  intros [Hdom Hstored].
  destruct (decide (lang = locale st)) as [->|Hne].
  - exists st. by rewrite locale_set_same.
  - rewrite locale_set_changed by done. eexists. split; [done|].
    destruct (locale_subscriber_fields config lang (with_locale lang st))
      as (Htr & Hloc & Hbr & _ & _ & Hls & _).
    cbn [translations locale browser localStorage with_locale] in *.
    repeat split; try done.
    + rewrite Htr. apply Hdom.
    + rewrite Htr. apply Hdom.
    + rewrite Hbr, Hls, Hloc. intros ->. by rewrite lookup_insert_eq.
Qed.

Lemma setLocale_ok (arg : lang_arg) st :
  store_ok config st →
  ∃ st', setLocale config arg st = Ok (tt, st')
    ∧ store_ok config st'
    ∧ browser st' = browser st
    ∧ translations st' = translations st.
Proof.
  intros Hok. destruct arg as [lang| |]; cbn [setLocale]; try by exists st.
  destruct (negb (truthy lang)).
  { run_M. destruct (devLogs_enabled config); eexists; (split; [done|]); done. }
  destruct (includes (supportedLocales config) lang).
  - destruct (locale_set_ok lang st Hok) as (st' & ? & ? & ? & ? & _). by exists st'.
  - run_M. destruct (devLogs_enabled config); eexists; (split; [done|]); done.
Qed.

(** [extendTranslations] never throws on a reachable state: the table has
    a [Map] for every locale of the new table. *)
Lemma extendTranslations_ok (newTranslations : list PartialTranslationEntryMap) st :
  store_ok config st →
  ∃ merged,
    merge_translations (makeTranslation (supportedLocales config) newTranslations)
      (translations st) = Ok merged
    ∧ (∀ lang, is_Some (merged !! lang) ↔ lang ∈ supportedLocales config)
    ∧ extendTranslations config newTranslations st
      = Ok (tt, with_t (get_ref merged (locale st)) (with_translations merged st)).
Proof.
  intros [Hdom _].
  destruct (merge_translations_lookup
              (makeTranslation (supportedLocales config) newTranslations)
              (translations st)) as (merged & Hmerge & Hlookup).
  { intros lang Hlang. apply Hdom. by apply makeTranslation_is_Some in Hlang. }
  exists merged. split; [done|]. split; [|by apply extendTranslations_merged].
  intros lang. rewrite Hlookup, <- Hdom.
  destruct (makeTranslation _ _ !! lang); [|done].
  by rewrite fmap_is_Some.
Qed.

Lemma perform_ok (c : call) st :
  store_ok config st →
  ∃ st', perform config c st = Ok (tt, st')
    ∧ store_ok config st'
    ∧ browser st' = browser st.
Proof.
  intros Hok. destruct c as [arg|lang|newTranslations]; cbn [perform].
  - destruct (setLocale_ok arg st Hok) as (st' & ? & ? & ? & _). by exists st'.
  - destruct (locale_set_ok lang st Hok) as (st' & ? & ? & ? & _). by exists st'.
  - destruct (extendTranslations_ok newTranslations st Hok)
      as (merged & _ & Hdom & ->).
    eexists. split; [done|]. split; [|done]. split; [done|]. apply Hok.
Qed.

(** Every sequence of calls runs to the end, and leaves a state that
    satisfies [store_ok]. *)
Lemma perform_all_ok (calls : list call) st :
  store_ok config st →
  ∃ st', perform_all config calls st = Ok (tt, st')
    ∧ store_ok config st'
    ∧ browser st' = browser st.
Proof.
  revert st. induction calls as [|c calls IH]; intros st Hok.
  - by exists st.
  - destruct (perform_ok c st Hok) as (st1 & Hc & Hok1 & Hb1).
    destruct (IH st1 Hok1) as (st2 & Hcs & Hok2 & Hb2).
    exists st2. split; [|split; [done | congruence]].
    cbn [perform_all]. unfold mbind, M_bind. by rewrite Hc.
Qed.

Lemma perform_all_store_ok (env : Env) (calls : list call) st :
  perform_all config calls (createI18nStore config env) = Ok (tt, st) →
  store_ok config st.
Proof.
  intros Hrun.
  destruct (perform_all_ok calls _ (createI18nStore_ok config env))
    as (st' & Hrun' & Hok & _).
  rewrite Hrun in Hrun'. by injection Hrun' as ->.
Qed.

End calls.

(** * The claims *)

(** ** C2: the priority order of the locale resolver *)

Lemma preferredLangs_detect (config : I18nConfig) (preferredLangs : list string) :
  (if bool_decide (0 < List.length preferredLangs) then
     match scan_preferredLangs (supportedLocales config) preferredLangs with
     | Some lang => lang
     | None => defaultLocale config
     end
   else defaultLocale config)
  = match Spec.first_tag_match (supportedLocales config) preferredLangs with
    | Some lang => lang
    | None => defaultLocale config
    end.
Proof.
  rewrite scan_preferredLangs_first_match.
  destruct preferredLangs as [|tag tags]; [done|].
  rewrite bool_decide_eq_true_2; [done | simpl; lia].
Qed.

Lemma preferredLangs_tags (env : Env) :
  match navigator_languages env with
  | Some languages => languages
  | None =>
      match navigator_language env with
      | Some language => if truthy language then [language] else []
      | None => []
      end
  end = Spec.preferred_tags env.
Proof.
  unfold Spec.preferred_tags, truthy.
  destruct (navigator_languages env); [done|].
  destruct (navigator_language env) as [language|]; [|done].
  by destruct (bool_decide (language = EmptyString)).
Qed.

(** C2.  [getInitLocale] returns what the priority order of the resolver
    prescribes, first match wins: without a window, the default locale;
    else the persisted value when it is not empty and is supported; else
    the match of the first preferred tag that has one, the tag itself
    before its base subtag (the text before the first hyphen), the
    preferred tags being the list when there is one and else the single
    preferred language when present; else the default locale. *)
Theorem getInitLocale_resolves (config : I18nConfig) (env : Env) :
  getInitLocale config env = Spec.resolve config env.
Proof.
  unfold getInitLocale, Spec.resolve, Spec.persisted_locale.
  destruct (window_defined env); [|done]. cbn [negb].
  rewrite preferredLangs_tags, preferredLangs_detect.
  destruct (stored env !! localStorageKey config) as [storedLang|]; [|done].
  cbn [mbind option_bind]. rewrite stored_valid_persisted.
  by destruct (bool_decide _).
Qed.

(** ** C3: placeholder substitution *)

(** C3 fails on the code.  The callback reads [replacements[key]], and a
    property read also finds what the object inherits from
    [Object.prototype].  The stored text [Made by {constructor}] and the
    empty replacements object, which has no entry for [constructor], do not
    give the text back with the placeholder left verbatim: the translator
    puts the string form of the inherited function [Object] in its place.
    An object that binds another name only fares the same. *)
Theorem t_substitutes_inherited_property :
  (∅ : gmap string jsval) !! "constructor" = None
  ∧ returned (t Fixture.credits_config "credits" (Some ∅) Fixture.credits_store)
    = Ok "Made by function Object() { [native code] }"
  ∧ ({[ "name" := JStr "Ann" ]} : gmap string jsval) !! "constructor" = None
  ∧ returned (t Fixture.credits_config "credits"
                (Some {[ "name" := JStr "Ann" ]}) Fixture.credits_store)
    = Ok "Made by function Object() { [native code] }".
Proof. repeat split; vm_compute; reflexivity. Qed.

(** ** C6: building the table *)

(** C6.  [makeTranslation] returns, for each supported locale, a mapping
    that starts empty and receives, in the order of the batches, of their
    entries and of the pairs of each entry, every pair whose locale it is;
    for any other locale it returns nothing, so the pairs naming one are
    dropped.  A key of a supported locale therefore reads as the last string
    written for that key and locale, and is absent when none was. *)
Theorem makeTranslation_builds (supported : list string)
    (batches : list PartialTranslationEntryMap) (lang : string) :
  makeTranslation supported batches !! lang
  = (if bool_decide (lang ∈ supported)
     then Some (Spec.write_pairs lang ∅ (Spec.all_pairs batches))
     else None)
  ∧ ∀ key,
      makeTranslation supported batches !! lang ≫= (.!! key)
      = if bool_decide (lang ∈ supported)
        then Spec.last_write lang key (Spec.all_pairs batches)
        else None.
Proof.
  rewrite makeTranslation_lookup. unfold Spec.build_lookup. split; [done|].
  intros key. destruct (bool_decide (lang ∈ supported)); [|done].
  cbn [mbind option_bind]. rewrite write_pairs_lookup, lookup_empty.
  by destruct (Spec.last_write _ _ _).
Qed.

(** ** C7: extension against building from the concatenation *)

(** C7.  Merging the table built from a second sequence of batches into the
    table built from a first one gives the table built from the first
    sequence followed by the second; and [extendTranslations], called on a
    fresh store, runs to the end and leaves that table.  A pair the later
    batches write thus reads as they wrote it last, whatever the initial
    batches held. *)
Theorem extendTranslations_builds_concatenation (config : I18nConfig)
    (env : Env) (newTranslations : list PartialTranslationEntryMap) :
  merge_translations
    (makeTranslation (supportedLocales config) newTranslations)
    (makeTranslation (supportedLocales config) (initialTranslations config))
  = Ok (makeTranslation (supportedLocales config)
          (initialTranslations config ++ newTranslations))
  ∧ (∃ st,
       extendTranslations config newTranslations (createI18nStore config env)
       = Ok (tt, st)
       ∧ translations st
         = makeTranslation (supportedLocales config)
             (initialTranslations config ++ newTranslations)
       ∧ ∀ lang key value,
           lang ∈ supportedLocales config →
           Spec.last_write lang key (Spec.all_pairs newTranslations) = Some value →
           translations st !! lang ≫= (.!! key) = Some value).
Proof.
  pose proof (merge_makeTranslation (supportedLocales config)
                (initialTranslations config) newTranslations) as Hmerge.
  split; [done|].
  assert (translations (createI18nStore config env)
          = makeTranslation (supportedLocales config) (initialTranslations config))
    as Hinit.
  { unfold createI18nStore.
    match goal with |- translations (locale_subscriber _ ?l ?s) = _ =>
      by destruct (locale_subscriber_fields config l s) as (-> & _) end. }
  eexists. split.
  { apply extendTranslations_merged. rewrite Hinit. exact Hmerge. }
  cbn [translations with_t with_translations]. split; [done|].
  intros lang key value Hlang Hlast.
  destruct (makeTranslation_builds (supportedLocales config)
              (initialTranslations config ++ newTranslations) lang) as [_ ->].
  rewrite bool_decide_eq_true_2 by done.
  unfold Spec.last_write in *.
  by rewrite all_pairs_app, omap_app, last_app, Hlast.
Qed.

(** The override example of the specification: [k] is written as A for
    [en] at construction and as B by the extension. *)
Lemma extendTranslations_override_witness :
  ∃ st,
    extendTranslations Fixture.override_config [[("k", [("en", "B")])]]
      (createI18nStore Fixture.override_config Fixture.browser_env)
    = Ok (tt, st)
    ∧ translations st !! "en" ≫= (.!! "k") = Some "B".
Proof.
  destruct (extendTranslations_builds_concatenation Fixture.override_config
              Fixture.browser_env [[("k", [("en", "B")])]])
    as (_ & st & Hrun & _ & Hlast).
  exists st. split; [exact Hrun|].
  apply Hlast; [left | reflexivity].
Defined.

(** ** C8 and C9: lookup and fallback *)

(** C8.  For a key the current view has no entry for, the translator,
    called without replacements, returns the key itself. *)
Theorem t_fallback_to_key (config : I18nConfig) (st : State)
    (map : gmap string string) (key : string) :
  current_view st = Some map →
  map !! key = None →
  returned (t config key None st) = Ok key.
Proof.
  intros Hview Hkey. unfold t. run_M. rewrite Hview, Hkey.
  by destruct (devLogs_enabled config).
Qed.

(** In the store of the test suite no locale has the key [missing.key]. *)
Lemma t_fallback_to_key_witness :
  returned (t Fixture.test_config "missing.key" None
              (createI18nStore Fixture.test_config Fixture.browser_env))
  = Ok "missing.key".
Proof.
  apply (t_fallback_to_key Fixture.test_config
           (createI18nStore Fixture.test_config Fixture.browser_env)
           (Spec.write_pairs "en" ∅ (Spec.all_pairs Fixture.test_translations)));
    reflexivity.
Defined.

(** C9.  A key whose stored string is empty translates to the empty string,
    with or without replacements, and no warning is issued: the key is
    returned in place of the stored string only when the view has no entry
    for it.  Whatever string is stored is returned as it is when no
    replacements are given. *)
Theorem t_returns_stored_empty_string (config : I18nConfig) (st : State)
    (map : gmap string string) (key : string) :
  current_view st = Some map →
  (map !! key = Some EmptyString →
   ∀ replacements, t config key replacements st = Ok (EmptyString, st))
  ∧ (∀ translation, map !! key = Some translation →
       t config key None st = Ok (translation, st)).
Proof.
  intros Hview. split.
  - intros Hkey replacements. unfold t. run_M. rewrite Hview, Hkey.
    by destruct replacements.
  - intros translation Hkey. unfold t. run_M. by rewrite Hview, Hkey.
Qed.

(** A store whose only key is stored as the empty string. *)
Lemma t_returns_stored_empty_string_witness :
  t Fixture.blank_config "blank" (Some ∅)
    (createI18nStore Fixture.blank_config Fixture.ssr_env)
  = Ok (EmptyString, createI18nStore Fixture.blank_config Fixture.ssr_env).
Proof.
  apply (proj1 (t_returns_stored_empty_string Fixture.blank_config
                  (createI18nStore Fixture.blank_config Fixture.ssr_env)
                  {[ "blank" := EmptyString ]} "blank" eq_refl));
    reflexivity.
Defined.

(** ** C5: the validating setter *)

(** The warning [setLocale] issues for an argument it does not write: its
    own message for the empty string, the message naming the value and the
    supported locales for an unsupported string, none for [null] and
    [undefined], and none at all when [devLogs] is off. *)
Lemma setLocale_rejects (config : I18nConfig) (arg : lang_arg) (st : State) :
  (∀ lang, arg = LString lang →
     lang = EmptyString ∨ lang ∉ supportedLocales config) →
  setLocale config arg st
  = Ok (tt,
        if devLogs_enabled config then
          match arg with
          | LString EmptyString => warn empty_lang_message st
          | LString lang => warn (unsupported_lang_message config lang) st
          | LNull | LUndefined => st
          end
        else st).
Proof.
  intros Hbad. destruct arg as [lang| |]; cbn [setLocale]; run_M;
    try by destruct (devLogs_enabled config).
  destruct (Hbad lang eq_refl) as [->|Hout].
  - cbn. by destruct (devLogs_enabled config).
  - unfold truthy, includes. rewrite (bool_decide_eq_false_2 _ Hout).
    destruct lang; cbn; by destruct (devLogs_enabled config).
Qed.

(** C5.  [setLocale(lang)] writes [lang] to the locale cell when [lang] is
    a string that is not empty and is supported: the call is the write
    [locale.set(lang)], it runs to the end, and after it the active locale
    is [lang]; when [lang] differs from the locale before, the subscriber
    has run on it, so the view points at the mapping of [lang] when the
    table has one and, in a browser, [lang] was persisted by one more
    [setItem] call; the table and the warnings are untouched.  For any
    other argument (the empty string, [null], [undefined], an unsupported
    string) it writes nothing: the locale, the view, the table and the
    storage stay as they were, and the only effect is the warning, which is
    a message of its own for the empty string, the message naming the value
    for an unsupported string, and absent for [null] and [undefined] and
    whenever [devLogs] is off.  So a call that changes the active locale
    was given a supported string that is not empty. *)
Theorem setLocale_writes_iff_supported (config : I18nConfig)
    (arg : lang_arg) (st : State) :
  (∀ lang, arg = LString lang →
     lang ≠ EmptyString → lang ∈ supportedLocales config →
     setLocale config arg st = locale_set config lang st
     ∧ ∃ st', setLocale config arg st = Ok (tt, st')
         ∧ locale st' = lang
         ∧ translations st' = translations st
         ∧ console_warn st' = console_warn st
         ∧ (lang = locale st → st' = st)
         ∧ (lang ≠ locale st →
              _t st' = (if bool_decide (is_Some (translations st !! lang))
                        then Some lang else _t st)
              ∧ localStorage st'
                = (if browser st
                   then <[localStorageKey config := lang]> (localStorage st)
                   else localStorage st)
              ∧ setItem_calls st'
                = (if browser st
                   then (setItem_calls st ++ [(localStorageKey config, lang)])%list
                   else setItem_calls st)))
  ∧ ((∀ lang, arg = LString lang →
        lang = EmptyString ∨ lang ∉ supportedLocales config) →
     ∃ st', setLocale config arg st = Ok (tt, st')
       ∧ locale st' = locale st
       ∧ _t st' = _t st
       ∧ translations st' = translations st
       ∧ localStorage st' = localStorage st
       ∧ setItem_calls st' = setItem_calls st
       ∧ console_warn st'
         = (console_warn st
            ++ if devLogs_enabled config then
                 match arg with
                 | LString EmptyString => [empty_lang_message]
                 | LString lang => [unsupported_lang_message config lang]
                 | LNull | LUndefined => []
                 end
               else [])%list)
  ∧ (∀ st', setLocale config arg st = Ok (tt, st') →
       locale st' ≠ locale st →
       ∃ lang, arg = LString lang ∧ lang ≠ EmptyString
         ∧ lang ∈ supportedLocales config ∧ locale st' = lang).
Proof.
  assert (∀ lang, arg = LString lang →
            lang ≠ EmptyString → lang ∈ supportedLocales config →
            setLocale config arg st = locale_set config lang st) as Hset.
  { intros lang -> Hne Hin. cbn [setLocale]. unfold truthy, includes.
    by rewrite (bool_decide_eq_false_2 _ Hne), (bool_decide_eq_true_2 _ Hin). }
  assert ((∀ lang, arg = LString lang →
             lang = EmptyString ∨ lang ∉ supportedLocales config) →
          ∃ st', setLocale config arg st = Ok (tt, st')
            ∧ locale st' = locale st
            ∧ _t st' = _t st
            ∧ translations st' = translations st
            ∧ localStorage st' = localStorage st
            ∧ setItem_calls st' = setItem_calls st
            ∧ console_warn st'
              = (console_warn st
                 ++ if devLogs_enabled config then
                      match arg with
                      | LString EmptyString => [empty_lang_message]
                      | LString lang => [unsupported_lang_message config lang]
                      | LNull | LUndefined => []
                      end
                    else [])%list) as Hrejects.
  { intros Hbad. rewrite (setLocale_rejects config arg st Hbad).
    eexists. split; [done|].
    destruct (devLogs_enabled config); [|by rewrite app_nil_r].
    destruct arg as [[|c lang]| |]; cbn; by rewrite ?app_nil_r. }
  assert (∀ lang, arg = LString lang →
            lang ≠ EmptyString → lang ∈ supportedLocales config →
            ∃ st', setLocale config arg st = Ok (tt, st')
              ∧ locale st' = lang
              ∧ translations st' = translations st
              ∧ console_warn st' = console_warn st
              ∧ (lang = locale st → st' = st)
              ∧ (lang ≠ locale st →
                   _t st' = (if bool_decide (is_Some (translations st !! lang))
                             then Some lang else _t st)
                   ∧ localStorage st'
                     = (if browser st
                        then <[localStorageKey config := lang]> (localStorage st)
                        else localStorage st)
                   ∧ setItem_calls st'
                     = (if browser st
                        then (setItem_calls st
                              ++ [(localStorageKey config, lang)])%list
                        else setItem_calls st))) as Hwrites.
  { intros lang Harg Hne Hin. rewrite (Hset lang Harg Hne Hin).
    destruct (decide (lang = locale st)) as [->|Hnew].
    - exists st. by rewrite locale_set_same.
    - rewrite locale_set_changed by done. eexists. split; [done|].
      destruct (locale_subscriber_fields config lang (with_locale lang st))
        as (Htr & Hloc & _ & Hwarn & Ht & Hls & Hcalls).
      cbn [translations locale browser localStorage setItem_calls console_warn
           _t with_locale] in *.
      repeat split; done. }
  split; [|split; [done|]].
  - intros lang Harg Hne Hin. split; [by apply Hset | by apply Hwrites].
  - intros st' Hrun Hchanged.
    destruct arg as [lang| |].
    + destruct (decide (lang = EmptyString)) as [->|Hne].
      { destruct Hrejects as (st'' & Hrun' & Hloc & _);
          [intros ? [= <-]; by left|]. congruence. }
      destruct (decide (lang ∈ supportedLocales config)) as [Hin|Hout].
      * destruct (Hwrites lang eq_refl Hne Hin) as (st'' & Hrun' & Hloc & _).
        exists lang. repeat split; try done. congruence.
      * destruct Hrejects as (st'' & Hrun' & Hloc & _);
          [intros ? [= <-]; by right|].
        congruence.
    + destruct Hrejects as (st'' & Hrun' & Hloc & _); [done|]. congruence.
    + destruct Hrejects as (st'' & Hrun' & Hloc & _); [done|]. congruence.
Qed.

(** The suite's valid call, [setLocale('es')], on its fresh store, a browser
    whose active locale is [en]. *)
Lemma setLocale_writes_iff_supported_witness :
  ∃ st',
    setLocale Fixture.test_config (LString "es") Fixture.fresh_store
    = Ok (tt, st')
    ∧ locale st' = "es"
    ∧ _t st' = Some "es"
    ∧ localStorage st' !! "test-lang-key" = Some "es"
    ∧ setItem_calls st'
      = [("test-lang-key", "en"); ("test-lang-key", "es")].
Proof.
  destruct (proj1 (setLocale_writes_iff_supported Fixture.test_config
                     (LString "es") Fixture.fresh_store)
              "es" eq_refl ltac:(discriminate) ltac:(right; left))
    as (_ & st' & Hrun & Hloc & _ & _ & _ & Hnew).
  destruct Hnew as (Ht & Hls & Hcalls);
    [intros Heq; vm_compute in Heq; discriminate|].
  exists st'. split; [exact Hrun|]. split; [exact Hloc|].
  split; [|split].
  - rewrite Ht. vm_compute. reflexivity.
  - rewrite Hls. vm_compute. reflexivity.
  - rewrite Hcalls. vm_compute. reflexivity.
Defined.

(** ** C4: a direct write of an unsupported locale *)

(** What the translator returns depends on the state through the current
    view only. *)
Lemma t_returned_view (config : I18nConfig) (key : string)
    (replacements : option (gmap string jsval)) (st st' : State) :
  current_view st' = current_view st →
  returned (t config key replacements st')
  = returned (t config key replacements st).
Proof.
  intros Hview. unfold t. run_M. rewrite Hview.
  destruct (current_view st) as [map|]; [|done].
  destruct (map !! key); [done|]. by destruct (devLogs_enabled config).
Qed.

(** C4.  In a state reached by any calls after construction, writing to
    the locale store a string the table has no entry for makes that string
    the active locale and, where there is a window, leaves it stored under
    the storage key; the [_t] store and the table are untouched, so the
    translator returns for every key and every replacements what it
    returned before the write. *)
Theorem unsupported_direct_write_keeps_view (config : I18nConfig) (env : Env)
    (calls : list call) (st : State) (lang : string) :
  perform_all config calls (createI18nStore config env) = Ok (tt, st) →
  translations st !! lang = None →
  ∃ st', locale_set config lang st = Ok (tt, st')
    ∧ locale st' = lang
    ∧ (browser st' = true →
       localStorage st' !! localStorageKey config = Some lang)
    ∧ _t st' = _t st
    ∧ translations st' = translations st
    ∧ ∀ key replacements,
        returned (t config key replacements st')
        = returned (t config key replacements st).
Proof.
  intros Hrun Hlang. apply perform_all_store_ok in Hrun as Hok.
  destruct (locale_set_ok config lang st Hok)
    as (st' & Hset & [_ Hstored] & _ & Htr & Hloc).
  exists st'. split; [done|]. split; [done|].
  split; [by rewrite <- Hloc|].
  assert (_t st' = _t st) as Ht.
  { destruct (decide (lang = locale st)) as [->|Hne].
    - rewrite locale_set_same in Hset. by injection Hset as <-.
    - rewrite locale_set_changed in Hset by done. injection Hset as <-.
      destruct (locale_subscriber_fields config lang (with_locale lang st))
        as (_ & _ & _ & _ & -> & _).
      cbn [translations _t with_locale]. rewrite Hlang.
      by rewrite bool_decide_eq_false_2 by (by intros [? ?]). }
  split; [done|]. split; [done|].
  intros key replacements. apply t_returned_view.
  unfold current_view. by rewrite Ht, Htr.
Qed.

(** The suite's forced write, [locale.set('fr')], on its fresh store in a
    browser. *)
Lemma unsupported_direct_write_keeps_view_witness :
  ∃ st', locale_set Fixture.test_config "fr"
           (createI18nStore Fixture.test_config Fixture.browser_env)
         = Ok (tt, st')
    ∧ locale st' = "fr"
    ∧ (browser st' = true →
       localStorage st' !! localStorageKey Fixture.test_config = Some "fr")
    ∧ _t st' = _t (createI18nStore Fixture.test_config Fixture.browser_env)
    ∧ translations st'
      = translations (createI18nStore Fixture.test_config Fixture.browser_env)
    ∧ ∀ key replacements,
        returned (t Fixture.test_config key replacements st')
        = returned (t Fixture.test_config key replacements
                      (createI18nStore Fixture.test_config Fixture.browser_env)).
Proof.
  apply (unsupported_direct_write_keeps_view Fixture.test_config
           Fixture.browser_env [] _ "fr"); reflexivity.
Defined.

(** ** C10: what [extendTranslations] does to the locale store *)

(** C10, as the code has it.  In a state reached by any calls after
    construction, in a browser or not, [extendTranslations] runs to the
    end, with any batches, the empty list included.  It hands the unchanged
    locale back to the locale store, and the store, whose value does not
    change, does not call its subscriber: nothing is written to the
    storage, no call of [setItem] is made, and the locale stays as it
    was. *)
Theorem extendTranslations_does_not_persist (config : I18nConfig) (env : Env)
    (calls : list call) (st : State)
    (newTranslations : list PartialTranslationEntryMap) :
  perform_all config calls (createI18nStore config env) = Ok (tt, st) →
  ∃ st', extendTranslations config newTranslations st = Ok (tt, st')
    ∧ locale st' = locale st
    ∧ setItem_calls st' = setItem_calls st
    ∧ localStorage st' = localStorage st
    ∧ console_warn st' = console_warn st.
Proof.
  intros Hrun. apply perform_all_store_ok in Hrun as Hok.
  destruct (extendTranslations_ok config newTranslations st Hok)
    as (merged & _ & _ & ->).
  eexists. split; [done|]. by repeat split.
Qed.

(** An empty extension of the suite's fresh store, in a browser. *)
Lemma extendTranslations_does_not_persist_witness :
  ∃ st', extendTranslations Fixture.test_config []
           (createI18nStore Fixture.test_config Fixture.browser_env)
         = Ok (tt, st')
    ∧ locale st' = "en"
    ∧ setItem_calls st' = [("test-lang-key", "en")]
    ∧ localStorage st' = {[ "test-lang-key" := "en" ]}
    ∧ console_warn st' = [].
Proof.
  exact (extendTranslations_does_not_persist Fixture.test_config
           Fixture.browser_env []
           (createI18nStore Fixture.test_config Fixture.browser_env) []
           eq_refl).
Defined.

(** The claim as stated fails in a browser on the suite's fresh store: an
    empty extension makes no further call of [setItem], where the claim has
    the locale persisted once more. *)
Lemma extendTranslations_persists_counterexample :
  browser (createI18nStore Fixture.test_config Fixture.browser_env) = true
  ∧ ¬ ∃ st',
      extendTranslations Fixture.test_config []
        (createI18nStore Fixture.test_config Fixture.browser_env)
      = Ok (tt, st')
      ∧ setItem_calls st'
        = (setItem_calls (createI18nStore Fixture.test_config Fixture.browser_env)
           ++ [("test-lang-key", "en")])%list.
Proof.
  split; [reflexivity|]. intros (st' & Hrun & Hcalls).
  destruct (extendTranslations_ok Fixture.test_config []
              (createI18nStore Fixture.test_config Fixture.browser_env)
              (createI18nStore_ok _ _)) as (merged & _ & _ & Hrun').
  rewrite Hrun' in Hrun. injection Hrun as <-.
  cbn [setItem_calls with_t with_translations] in Hcalls.
  apply (f_equal List.length) in Hcalls. rewrite length_app in Hcalls.
  cbn [List.length] in Hcalls. lia.
Qed.

(** ** C1: the translator after an unsupported write and an extension *)

(** C1 fails on the code.  On the suite's store in a browser, a direct
    write of the unsupported locale [fr] followed by an empty extension
    runs to the end and leaves the [_t] store holding [undefined]; the
    translator then throws on its first lookup. *)
Theorem t_throws_after_unsupported_write_and_extension :
  ∃ st,
    perform_all Fixture.test_config
      [LocaleSet "fr"; ExtendTranslations []]
      (createI18nStore Fixture.test_config Fixture.browser_env)
    = Ok (tt, st)
    ∧ locale st = "fr"
    ∧ _t st = None
    ∧ t Fixture.test_config "hello" None st = Throw TypeError.
Proof. eexists. repeat split; reflexivity. Qed.

(** ** The translator on stores that only ever hold supported locales *)

Section supported_writes.

Variable config : I18nConfig.

Hypothesis default_supported : defaultLocale config ∈ supportedLocales config.

Implicit Types (st : State) (lang key : string).

Lemma scan_preferredLangs_supported (preferredLangs : list string) lang :
  scan_preferredLangs (supportedLocales config) preferredLangs = Some lang →
  lang ∈ supportedLocales config.
Proof.
  induction preferredLangs as [|tag tags IH]; [done|]. cbn [scan_preferredLangs].
  unfold includes. case_bool_decide as Hfull; [by intros [= <-]|].
  destruct (head _) as [baseLang|]; [|done].
  case_bool_decide as Hbase; [by intros [= <-] | done].
Qed.

Lemma getInitLocale_supported (env : Env) :
  getInitLocale config env ∈ supportedLocales config.
Proof.
  unfold getInitLocale. destruct (window_defined env); [|done].
  cbn [negb]. cbv zeta.
  set (detect := if bool_decide (0 < _) then _ else _).
  assert (detect ∈ supportedLocales config) as Hdetect.
  { subst detect. destruct (bool_decide _); [|done].
    destruct (scan_preferredLangs _ _) as [lang|] eqn:Hscan; [|done].
    by apply scan_preferredLangs_supported in Hscan. }
  clearbody detect.
  destruct (stored env !! localStorageKey config) as [storedLang|]; [|done].
  unfold includes. destruct (truthy storedLang); [|done]. cbn [andb].
  by case_bool_decide.
Qed.

Lemma createI18nStore_view_ok (env : Env) :
  view_ok config (createI18nStore config env).
Proof.
  split; [apply createI18nStore_ok|].
  pose proof (getInitLocale_supported env) as Hinit.
  unfold createI18nStore.
  match goal with |- context [locale_subscriber _ ?l ?s] =>
    destruct (locale_subscriber_fields config l s)
      as (_ & -> & _ & _ & -> & _) end.
  cbn [translations locale].
  rewrite bool_decide_eq_true_2; [done|].
  by apply makeTranslation_is_Some.
Qed.

Lemma locale_set_view_ok lang st :
  lang ∈ supportedLocales config →
  view_ok config st →
  ∃ st', locale_set config lang st = Ok (tt, st') ∧ view_ok config st'.
Proof.
  intros Hlang (Hok & Ht & Hloc).
  destruct (locale_set_ok config lang st Hok) as (st' & Hset & Hok' & _ & _ & Hl).
  exists st'. split; [done|]. split; [done|]. rewrite Hl. split; [|done].
  destruct (decide (lang = locale st)) as [->|Hne].
  - rewrite locale_set_same in Hset. by injection Hset as <-.
  - rewrite locale_set_changed in Hset by done. injection Hset as <-.
    destruct (locale_subscriber_fields config lang (with_locale lang st))
      as (_ & _ & _ & _ & -> & _).
    cbn [translations with_locale].
    rewrite bool_decide_eq_true_2; [done|]. by apply Hok.
Qed.

Lemma perform_view_ok (c : call) st :
  writes_supported config c →
  view_ok config st →
  ∃ st', perform config c st = Ok (tt, st') ∧ view_ok config st'.
Proof.
  intros Hc Hview. destruct c as [arg|lang|newTranslations]; cbn [perform].
  - destruct arg as [lang| |]; cbn [setLocale]; try by exists st.
    destruct (negb (truthy lang)).
    { run_M. destruct (devLogs_enabled config); by eexists. }
    unfold includes. case_bool_decide as Hin.
    + by apply locale_set_view_ok.
    + run_M. destruct (devLogs_enabled config); by eexists.
  - by apply locale_set_view_ok.
  - destruct Hview as (Hok & Ht & Hloc).
    destruct (extendTranslations_ok config newTranslations st Hok)
      as (merged & _ & Hdom & ->).
    eexists. split; [done|]. split; [split; [done | apply Hok]|].
    cbn [_t locale with_t with_translations]. split; [|done].
    unfold get_ref. by destruct (proj2 (Hdom (locale st)) Hloc) as [map ->].
Qed.

Lemma perform_all_view_ok (calls : list call) st :
  Forall (writes_supported config) calls →
  view_ok config st →
  ∃ st', perform_all config calls st = Ok (tt, st') ∧ view_ok config st'.
Proof.
  intros Hcalls. revert st. induction Hcalls as [|c calls Hc _ IH]; intros st Hview.
  - by exists st.
  - destruct (perform_view_ok c st Hc Hview) as (st1 & Hrun1 & Hview1).
    destruct (IH st1 Hview1) as (st2 & Hrun2 & Hview2).
    exists st2. split; [|done].
    cbn [perform_all]. unfold mbind, M_bind. by rewrite Hrun1.
Qed.

Lemma t_returns_on_view_ok st key (replacements : option (gmap string jsval)) :
  view_ok config st →
  ∃ s st', t config key replacements st = Ok (s, st').
Proof.
  intros ([Hdom _] & Ht & Hloc).
  destruct (proj2 (Hdom (locale st)) Hloc) as [map Hmap].
  unfold t, current_view. run_M. rewrite Ht. cbn [mbind option_bind].
  rewrite Hmap. destruct (map !! key); [by eexists _, _|].
  destruct (devLogs_enabled config); by eexists _, _.
Qed.

End supported_writes.

(** When the default locale is supported, as the type of the configuration
    demands, and every direct write to the locale store is of a supported
    locale, every sequence of calls runs to the end and the translator
    then returns a string for every key and every replacements. *)
Theorem t_returns_after_supported_writes (config : I18nConfig) (env : Env)
    (calls : list call) :
  defaultLocale config ∈ supportedLocales config →
  Forall (writes_supported config) calls →
  ∃ st,
    perform_all config calls (createI18nStore config env) = Ok (tt, st)
    ∧ ∀ key replacements,
        ∃ s st', t config key replacements st = Ok (s, st').
Proof.
  intros Hdefault Hcalls.
  destruct (perform_all_view_ok config calls
              (createI18nStore config env) Hcalls
              (createI18nStore_view_ok config Hdefault env))
    as (st & Hrun & Hview).
  exists st. split; [done|]. intros key replacements.
  by apply t_returns_on_view_ok.
Qed.

(** The suite's store after its supported writes and an extension. *)
Lemma t_returns_after_supported_writes_witness :
  ∃ st,
    perform_all Fixture.test_config
      [LocaleSet "es"; SetLocale (LString "fr");
       ExtendTranslations [[("bye", [("zh-TW", "zaijian")])]];
       SetLocale (LString "zh-TW")]
      (createI18nStore Fixture.test_config Fixture.browser_env)
    = Ok (tt, st)
    ∧ ∀ key replacements,
        ∃ s st', t Fixture.test_config key replacements st = Ok (s, st').
Proof.
  apply (t_returns_after_supported_writes Fixture.test_config
           Fixture.browser_env).
  - left.
  - repeat constructor.
Defined.

(** * Scenarios of the test suite, evaluated on the model *)

Section scenarios.

Import Fixture.

Example resolver_full_match :
  getInitLocale test_config
    {| window_defined := true; stored := {[ "test-lang-key" := "fr" ]};
       navigator_languages := Some ["de"; "zh-TW"]; navigator_language := None |}
  = "zh-TW".
Proof. reflexivity. Qed.

Example resolver_base_match :
  getInitLocale test_config
    {| window_defined := true; stored := {[ "test-lang-key" := "fr" ]};
       navigator_languages := Some ["es-MX"; "de"]; navigator_language := None |}
  = "es".
Proof. reflexivity. Qed.

Example resolver_single_language :
  getInitLocale test_config
    {| window_defined := true; stored := {[ "test-lang-key" := "fr" ]};
       navigator_languages := None; navigator_language := Some "es-ES" |}
  = "es".
Proof. reflexivity. Qed.

Example resolver_headless :
  getInitLocale test_config
    {| window_defined := false; stored := {[ "test-lang-key" := "es" ]};
       navigator_languages := Some ["zh-TW"]; navigator_language := None |}
  = "en".
Proof. reflexivity. Qed.

Example fresh_store_persists_initial_locale :
  locale fresh_store = "en" ∧ _t fresh_store = Some "en"
  ∧ setItem_calls fresh_store = [("test-lang-key", "en")].
Proof. by repeat split. Qed.

Example translate_with_replacement :
  returned (t test_config "welcome" (Some {[ "name" := JStr "Gemini" ]}) fresh_store)
  = Ok "Welcome, Gemini!".
Proof. reflexivity. Qed.

Example translate_zero :
  interpolate {[ "num" := JNum zero ]} "Items: {num}" = "Items: 0".
Proof. reflexivity. Qed.

Example translate_null_and_undefined :
  interpolate {[ "name" := JNull ]} "Welcome, {name}!" = "Welcome, {name}!"
  ∧ interpolate {[ "name" := JUndefined ]} "Welcome, {name}!" = "Welcome, {name}!".
Proof. by split. Qed.

Example translate_value_with_braces :
  interpolate {[ "value" := JStr "{some_other_key}";
                 "some_other_key" := JStr "again" ]} "Value is {value}"
  = "Value is {some_other_key}".
Proof. reflexivity. Qed.

Example translate_stray_braces :
  interpolate {[ "b" := JStr "B" ]} "{}{a{b}}{" = "{}{aB}{".
Proof. reflexivity. Qed.

Example missing_in_active_locale :
  returned ((locale_set test_config "zh-TW" ;; t test_config "bye" None) fresh_store)
  = Ok "bye".
Proof. reflexivity. Qed.

Example forced_write_keeps_translation :
  returned ((locale_set test_config "fr" ;; t test_config "hello" None) fresh_store)
  = Ok "Hello".
Proof. reflexivity. Qed.

Example extension_adds_locale_to_key :
  returned
    ((locale_set test_config "zh-TW" ;;
      extendTranslations test_config [[("bye", [("zh-TW", "zaijian")])]] ;;
      t test_config "bye" None) fresh_store)
  = Ok "zaijian".
Proof. reflexivity. Qed.

Example setLocale_warnings :
  (λ r, match r with Ok (_, st) => console_warn st | Throw _ => [] end)
    ((setLocale test_config LNull ;; setLocale test_config (LString EmptyString) ;;
      setLocale test_config (LString "fr")) fresh_store)
  = [ "[i18n] Initialization failed:  is not a lang.";
      "[i18n] Initialization failed: Language " +:+ dquote +:+ "fr" +:+ dquote
        +:+ " is not in supportedLocales [en, es, zh-TW]." ].
Proof. reflexivity. Qed.

End scenarios.

(** * Further properties of the code *)

(** ** Reasoning on reachable states *)

Section reachable.

Variable config : I18nConfig.

Implicit Types (st : State) (lang key : string).

(** What one call does to a state that satisfies [store_ok]: nothing, a
    warning, an effective write to the locale store, or a merge followed by
    the refresh of [_t]. *)
Lemma perform_cases (c : call) st st' :
  store_ok config st →
  perform config c st = Ok (tt, st') →
  st' = st
  ∨ (∃ message, st' = warn message st)
  ∨ (∃ lang,
       lang ≠ locale st
       ∧ (c = LocaleSet lang ∨ lang ∈ supportedLocales config)
       ∧ st' = locale_subscriber config lang (with_locale lang st))
  ∨ (∃ newTranslations merged,
       c = ExtendTranslations newTranslations
       ∧ merge_translations
           (makeTranslation (supportedLocales config) newTranslations)
           (translations st) = Ok merged
       ∧ (∀ lang, is_Some (merged !! lang) ↔ lang ∈ supportedLocales config)
       ∧ st' = with_t (get_ref merged (locale st)) (with_translations merged st)).
Proof.
  intros Hok.
  match goal with |- _ → ?G =>
    assert (∀ lang,
              (c = LocaleSet lang ∨ lang ∈ supportedLocales config) →
              locale_set config lang st = Ok (tt, st') → G) as Hset end.
  { intros lang Hc. destruct (decide (lang = locale st)) as [->|Hne].
    - rewrite locale_set_same. intros [= <-]. by left.
    - rewrite locale_set_changed by done. intros [= <-].
      right; right; left. by exists lang. }
  destruct c as [arg|lang|newTranslations]; cbn [perform].
  - destruct arg as [lang| |]; cbn [setLocale];
      try (intros [= <-]; by left).
    destruct (negb (truthy lang)).
    { run_M. destruct (devLogs_enabled config); intros [= <-];
        [right; left; by eexists | by left]. }
    unfold includes. case_bool_decide as Hin.
    + apply Hset. by right.
    + run_M. destruct (devLogs_enabled config); intros [= <-];
        [right; left; by eexists | by left].
  - apply Hset. by left.
  - destruct (extendTranslations_ok config newTranslations st Hok)
      as (merged & Hmerge & Hdom & ->).
    intros [= <-]. right; right; right. by exists newTranslations, merged.
Qed.

(** Induction on the calls that led to a state. *)
Lemma reaches_ind (env : Env) (P : State → Prop) :
  P (createI18nStore config env) →
  (∀ c st st',
     store_ok config st → P st → perform config c st = Ok (tt, st') → P st') →
  ∀ calls st, reaches config env calls st → P st.
Proof.
  intros Hinit Hstep calls. unfold reaches.
  pose proof (createI18nStore_ok config env) as Hok.
  revert Hok Hinit. generalize (createI18nStore config env) as st0.
  induction calls as [|c calls IH]; intros st0 Hok HP st.
  - by intros [= <-].
  - cbn [perform_all]. unfold mbind, M_bind.
    destruct (perform_ok config c st0 Hok) as (st1 & Hc & Hok1 & _).
    rewrite Hc. apply IH; [done|]. by apply (Hstep c st0).
Qed.

Lemma reaches_store_ok (env : Env) (calls : list call) st :
  reaches config env calls st → store_ok config st.
Proof. apply perform_all_store_ok. Qed.

(** The [_t] store holds the [Map] of the active locale whenever that
    locale is supported, and never the [Map] of an unsupported locale. *)
Lemma reaches_view (env : Env) (calls : list call) st :
  reaches config env calls st →
  (locale st ∈ supportedLocales config → _t st = Some (locale st))
  ∧ (∀ lang, _t st = Some lang → lang ∈ supportedLocales config).
Proof.
  revert calls st. apply reaches_ind.
  - unfold createI18nStore.
    match goal with |- context [locale_subscriber _ ?l ?s] =>
      destruct (locale_subscriber_fields config l s)
        as (_ & -> & _ & _ & -> & _) end.
    cbn [translations locale _t]. unfold get_ref.
    destruct (makeTranslation _ _ !! getInitLocale config env) eqn:Hinit.
    + rewrite bool_decide_eq_true_2 by done. split; [done|].
      intros lang [= <-].
      apply (makeTranslation_is_Some config (initialTranslations config)).
      by rewrite Hinit.
    + rewrite bool_decide_eq_false_2 by (by intros [? ?]). split; [|done].
      intros Hin%(makeTranslation_is_Some config (initialTranslations config)).
      rewrite Hinit in Hin. by destruct Hin.
  - intros c st st' Hok [Hsup Hview] Hc. pose proof Hok as [Hdom _].
    destruct (perform_cases c st st' Hok Hc)
      as [->|[[message ->]|[(lang & Hne & _ & ->)|(B & merged & _ & _ & Hm & ->)]]];
      try done.
    + destruct (locale_subscriber_fields config lang (with_locale lang st))
        as (_ & -> & _ & _ & -> & _).
      cbn [translations locale _t with_locale].
      case_bool_decide as Hin.
      * split; [done|]. intros l [= <-]. by apply Hdom.
      * split; [|done]. intros Hl. by apply Hdom in Hl.
    + cbn [_t locale with_t with_translations]. unfold get_ref.
      destruct (merged !! locale st) eqn:Hl.
      * split; [done|]. intros l [= <-]. apply Hm. by rewrite Hl.
      * split; [|done]. intros Hin%Hm. rewrite Hl in Hin. by destruct Hin.
Qed.

End reachable.

Section reachable_storage.

Variable config : I18nConfig.

Implicit Types (st : State) (lang key : string).

(** What the store has done to [localStorage] by the time it reaches a
    state. *)
Lemma reaches_storage (env : Env) (calls : list call) st :
  reaches config env calls st →
  browser st = window_defined env
  ∧ (∀ k, k ≠ localStorageKey config → localStorage st !! k = stored env !! k)
  ∧ Forall (λ c, c.1 = localStorageKey config) (setItem_calls st)
  ∧ (browser st = true →
     last (setItem_calls st) = Some (localStorageKey config, locale st))
  ∧ (browser st = false →
     setItem_calls st = [] ∧ localStorage st = stored env).
Proof.
  revert calls st. apply reaches_ind.
  - unfold createI18nStore.
    match goal with |- context [locale_subscriber _ ?l ?s] =>
      destruct (locale_subscriber_fields config l s)
        as (_ & -> & -> & _ & _ & -> & ->) end.
    cbn [browser localStorage setItem_calls locale].
    destruct (window_defined env); repeat split; try done.
    + intros k Hk. by rewrite lookup_insert_ne.
    + by repeat constructor.
  - intros c st st' Hok (Hbr & Hother & Hkeys & Hlast & Hoff) Hc.
    destruct (perform_cases config c st st' Hok Hc)
      as [->|[[message ->]|[(lang & Hne & _ & ->)|(B & merged & _ & _ & _ & ->)]]];
      try done.
    destruct (locale_subscriber_fields config lang (with_locale lang st))
      as (_ & -> & -> & _ & _ & -> & ->).
    cbn [browser localStorage setItem_calls locale with_locale].
    destruct (browser st) eqn:Hb; repeat split; try done;
      try (intros k Hk; rewrite ?lookup_insert_ne by done; by apply Hother);
      try (apply Forall_app; split; [done | by repeat constructor]);
      try (intros _; by rewrite last_snoc);
      try (by apply Hoff).
Qed.

(** What the translator returns when [_t] holds a [Map]. *)
Lemma t_returned (key : string) (replacements : option (gmap string jsval))
    st (map : gmap string string) :
  current_view st = Some map →
  returned (t config key replacements st)
  = Ok (match replacements with
        | Some replacements => interpolate replacements (default key (map !! key))
        | None => default key (map !! key)
        end).
Proof.
  intros Hview. unfold t. run_M. rewrite Hview.
  destruct (map !! key) as [translation|]; [done|].
  by destruct (devLogs_enabled config).
Qed.

Lemma current_view_supported (env : Env) (calls : list call) st :
  reaches config env calls st →
  locale st ∈ supportedLocales config →
  ∃ map, translations st !! locale st = Some map ∧ current_view st = Some map.
Proof.
  intros Hreach Hin.
  destruct (reaches_view config env calls st Hreach) as [Hview _].
  destruct (reaches_store_ok config env calls st Hreach) as [Hdom _].
  destruct (proj2 (Hdom (locale st)) Hin) as [map Hmap].
  exists map. split; [done|]. unfold current_view. by rewrite (Hview Hin).
Qed.

End reachable_storage.

(** ** The resolver and the storage *)

(** X2.  Whatever the storage and the navigator hold, [getInitLocale]
    returns the default locale or a supported one: a stored value or a
    preferred tag is returned only after [supportedLocales.includes] accepted
    it. *)
Theorem getInitLocale_default_or_supported (config : I18nConfig) (env : Env) :
  getInitLocale config env = defaultLocale config
  ∨ getInitLocale config env ∈ supportedLocales config.
Proof.
  unfold getInitLocale. destruct (window_defined env); [|by left].
  cbn [negb]. cbv zeta.
  set (detect := if bool_decide (0 < _) then _ else _).
  assert (detect = defaultLocale config ∨ detect ∈ supportedLocales config)
    as Hdetect.
  { subst detect. destruct (bool_decide _); [|by left].
    destruct (scan_preferredLangs _ _) as [lang|] eqn:Hscan; [|by left].
    right. by apply scan_preferredLangs_supported in Hscan. }
  clearbody detect.
  destruct (stored env !! localStorageKey config) as [storedLang|]; [|done].
  unfold includes. destruct (truthy storedLang); [|done]. cbn [andb].
  case_bool_decide; [by right | done].
Qed.

(** X3.  A reload restores the locale: in a browser, when the active locale
    of a reachable state is supported and is not the empty string, a store
    created later from the same configuration over the storage that state
    left starts in that locale, whatever the navigator prefers. *)
Theorem persisted_locale_is_restored (config : I18nConfig) (env : Env)
    (calls : list call) (st : State)
    (languages : option (list string)) (language : option string) :
  reaches config env calls st →
  browser st = true →
  locale st ∈ supportedLocales config →
  locale st ≠ EmptyString →
  getInitLocale config
    {| window_defined := true; stored := localStorage st;
       navigator_languages := languages; navigator_language := language |}
  = locale st.
Proof.
  intros Hreach Hbrowser Hin Hne.
  destruct (reaches_store_ok config env calls st Hreach) as [_ Hstored].
  unfold getInitLocale. cbn [window_defined negb stored]. cbv zeta.
  rewrite (Hstored Hbrowser), stored_valid_persisted.
  by rewrite bool_decide_eq_true_2.
Qed.

(** After [setLocale('es')] in the suite's browser, a reload in a browser
    that prefers zh-TW starts in es. *)
Lemma persisted_locale_is_restored_witness :
  getInitLocale Fixture.test_config
    {| window_defined := true;
       stored := localStorage
                   (state_after Fixture.test_config Fixture.browser_env
                      [SetLocale (LString "es")]);
       navigator_languages := Some ["zh-TW"];
       navigator_language := None |}
  = "es".
Proof.
  assert (reaches Fixture.test_config Fixture.browser_env
            [SetLocale (LString "es")]
            (state_after Fixture.test_config Fixture.browser_env
               [SetLocale (LString "es")]))
    as Hreach by (vm_compute; reflexivity).
  rewrite (persisted_locale_is_restored Fixture.test_config Fixture.browser_env
             _ _ (Some ["zh-TW"]) None Hreach).
  - vm_compute. reflexivity.
  - vm_compute. reflexivity.
  - vm_compute. right; left.
  - vm_compute. discriminate.
Defined.

(** X4.  Without a window the store never touches the storage: whatever
    calls are made, no [setItem] call happens and the storage stays as it
    was found. *)
Theorem headless_store_never_persists (config : I18nConfig) (env : Env)
    (calls : list call) (st : State) :
  window_defined env = false →
  reaches config env calls st →
  setItem_calls st = [] ∧ localStorage st = stored env.
Proof.
  intros Hheadless Hreach.
  destruct (reaches_storage config env calls st Hreach) as (Hb & _ & _ & _ & Hoff).
  apply Hoff. by rewrite Hb.
Qed.

(** The suite's server-side store after [locale.set('zh-TW')]. *)
Lemma headless_store_never_persists_witness :
  setItem_calls (state_after Fixture.test_config Fixture.ssr_env
                   [LocaleSet "zh-TW"]) = []
  ∧ localStorage (state_after Fixture.test_config Fixture.ssr_env
                    [LocaleSet "zh-TW"]) = ∅.
Proof.
  exact (headless_store_never_persists Fixture.test_config Fixture.ssr_env
           [LocaleSet "zh-TW"]
           (state_after Fixture.test_config Fixture.ssr_env [LocaleSet "zh-TW"])
           eq_refl eq_refl).
Defined.

(** X5.  The store writes to the storage under its own key only: in every
    reachable state every other key holds what it held when the store was
    created, and every [setItem] call named the configured key.  In a
    browser the last of these calls, and the storage under that key, hold
    the active locale, supported or not. *)
Theorem storage_written_under_own_key_only (config : I18nConfig) (env : Env)
    (calls : list call) (st : State) :
  reaches config env calls st →
  (∀ k, k ≠ localStorageKey config → localStorage st !! k = stored env !! k)
  ∧ Forall (λ c, c.1 = localStorageKey config) (setItem_calls st)
  ∧ (browser st = true →
     last (setItem_calls st) = Some (localStorageKey config, locale st)
     ∧ localStorage st !! localStorageKey config = Some (locale st)).
Proof.
  intros Hreach.
  destruct (reaches_storage config env calls st Hreach)
    as (_ & Hother & Hkeys & Hlast & _).
  destruct (reaches_store_ok config env calls st Hreach) as [_ Hstored].
  repeat split; try done; [by apply Hlast | by apply Hstored].
Qed.

(** The suite's browser store after a forced write of fr. *)
Lemma storage_written_under_own_key_only_witness :
  (∀ k, k ≠ "test-lang-key" →
     localStorage (state_after Fixture.test_config Fixture.browser_env
                     [LocaleSet "fr"]) !! k = None)
  ∧ Forall (λ c, c.1 = "test-lang-key")
      (setItem_calls (state_after Fixture.test_config Fixture.browser_env
                        [LocaleSet "fr"]))
  ∧ (browser (state_after Fixture.test_config Fixture.browser_env
                [LocaleSet "fr"]) = true →
     last (setItem_calls (state_after Fixture.test_config Fixture.browser_env
                            [LocaleSet "fr"]))
     = Some ("test-lang-key", "fr")
     ∧ localStorage (state_after Fixture.test_config Fixture.browser_env
                       [LocaleSet "fr"]) !! "test-lang-key" = Some "fr").
Proof.
  exact (storage_written_under_own_key_only Fixture.test_config
           Fixture.browser_env [LocaleSet "fr"]
           (state_after Fixture.test_config Fixture.browser_env [LocaleSet "fr"])
           eq_refl).
Defined.

(** ** The view and the active locale *)

Section view.

Variable config : I18nConfig.

Implicit Types (st : State) (lang key : string).

(** An effective or idle write of a supported locale leaves [_t] on the
    [Map] of that locale. *)
Lemma locale_set_supported_view (env : Env) (calls : list call) st lang :
  reaches config env calls st →
  lang ∈ supportedLocales config →
  ∃ st' map,
    locale_set config lang st = Ok (tt, st')
    ∧ locale st' = lang
    ∧ translations st' = translations st
    ∧ translations st !! lang = Some map
    ∧ current_view st' = Some map.
Proof.
  intros Hreach Hin.
  destruct (reaches_store_ok config env calls st Hreach) as [Hdom _].
  destruct (proj2 (Hdom lang) Hin) as [map Hmap].
  destruct (decide (lang = locale st)) as [->|Hne].
  - exists st, map. rewrite locale_set_same. repeat split; try done.
    destruct (current_view_supported config env calls st Hreach Hin)
      as (map' & Hmap' & ->). congruence.
  - rewrite locale_set_changed by done. eexists _, map. split; [done|].
    destruct (locale_subscriber_fields config lang (with_locale lang st))
      as (Htr & Hloc & _ & _ & Ht & _).
    cbn [translations locale with_locale] in *.
    repeat split; try done. unfold current_view. rewrite Ht, Htr.
    by rewrite bool_decide_eq_true_2 by (by rewrite Hmap).
Qed.

End view.

(** X6.  In every reachable state whose active locale is supported,
    whatever calls came before (forced writes of unsupported locales and
    extensions included), the translator does not throw: it returns the
    string the table holds for the key in the active locale, or the key when
    it holds none, with the placeholders replaced when replacements are
    given. *)
Theorem t_reads_active_locale_when_supported (config : I18nConfig) (env : Env)
    (calls : list call) (st : State) (key : string)
    (replacements : option (gmap string jsval)) :
  reaches config env calls st →
  locale st ∈ supportedLocales config →
  returned (t config key replacements st)
  = Ok (rendered replacements
          (default key (stored_translation (translations st) (locale st) key))).
Proof.
  intros Hreach Hin.
  destruct (current_view_supported config env calls st Hreach Hin)
    as (map & Hmap & Hview).
  rewrite (t_returned config key replacements st map Hview).
  unfold rendered, stored_translation. by rewrite Hmap.
Qed.

(** After the forced write of fr and the extension that leave [_t]
    undefined, a write of es brings the translator back. *)
Lemma t_reads_active_locale_when_supported_witness :
  returned (t Fixture.test_config "hello" None
              (state_after Fixture.test_config Fixture.browser_env
                 [LocaleSet "fr"; ExtendTranslations []; LocaleSet "es"]))
  = Ok "Hola".
Proof.
  assert (reaches Fixture.test_config Fixture.browser_env
            [LocaleSet "fr"; ExtendTranslations []; LocaleSet "es"]
            (state_after Fixture.test_config Fixture.browser_env
               [LocaleSet "fr"; ExtendTranslations []; LocaleSet "es"]))
    as Hreach by (vm_compute; reflexivity).
  rewrite (t_reads_active_locale_when_supported Fixture.test_config
             Fixture.browser_env _ _ "hello" None Hreach).
  - vm_compute. reflexivity.
  - vm_compute. right; left.
Defined.

(** X7.  In a reachable state the translator throws exactly when the [_t]
    store holds [undefined], for every key and every replacements alike;
    and [_t] holds [undefined] only while the active locale is an
    unsupported one. *)
Theorem t_throws_iff_view_undefined (config : I18nConfig) (env : Env)
    (calls : list call) (st : State) :
  reaches config env calls st →
  (∀ key replacements,
     t config key replacements st = Throw TypeError ↔ _t st = None)
  ∧ (_t st = None → locale st ∉ supportedLocales config).
Proof.
  intros Hreach.
  destruct (reaches_view config env calls st Hreach) as [Hsup Hview].
  destruct (reaches_store_ok config env calls st Hreach) as [Hdom _].
  split.
  - intros key replacements. unfold t, current_view. run_M.
    destruct (_t st) as [lang|] eqn:Ht; cbn [mbind option_bind]; [|done].
    destruct (proj2 (Hdom lang) (Hview lang eq_refl)) as [map ->].
    split; [|done].
    destruct (map !! key); [done|]. by destruct (devLogs_enabled config).
  - intros Hnone Hin. rewrite (Hsup Hin) in Hnone. done.
Qed.

(** The state of the suite after the forced write of fr and an empty
    extension. *)
Lemma t_throws_iff_view_undefined_witness :
  (∀ key replacements,
     t Fixture.test_config key replacements
       (state_after Fixture.test_config Fixture.browser_env
          [LocaleSet "fr"; ExtendTranslations []])
     = Throw TypeError
     ↔ _t (state_after Fixture.test_config Fixture.browser_env
             [LocaleSet "fr"; ExtendTranslations []]) = None)
  ∧ (_t (state_after Fixture.test_config Fixture.browser_env
           [LocaleSet "fr"; ExtendTranslations []]) = None →
     locale (state_after Fixture.test_config Fixture.browser_env
               [LocaleSet "fr"; ExtendTranslations []])
     ∉ supportedLocales Fixture.test_config).
Proof.
  assert (reaches Fixture.test_config Fixture.browser_env
            [LocaleSet "fr"; ExtendTranslations []]
            (state_after Fixture.test_config Fixture.browser_env
               [LocaleSet "fr"; ExtendTranslations []]))
    as Hreach by (vm_compute; reflexivity).
  exact (t_throws_iff_view_undefined Fixture.test_config Fixture.browser_env
           _ _ Hreach).
Defined.

(** X8.  [setLocale] with a supported locale that is not the empty string
    switches the translations: in every reachable state it runs to the end,
    the active locale becomes that locale, the table is untouched, and the
    translator then reads the table at that locale. *)
Theorem setLocale_switches_translations (config : I18nConfig) (env : Env)
    (calls : list call) (st : State) (lang : string) :
  reaches config env calls st →
  lang ∈ supportedLocales config →
  lang ≠ EmptyString →
  ∃ st',
    setLocale config (LString lang) st = Ok (tt, st')
    ∧ locale st' = lang
    ∧ translations st' = translations st
    ∧ ∀ key replacements,
        returned (t config key replacements st')
        = Ok (rendered replacements
                (default key (stored_translation (translations st) lang key))).
Proof.
  intros Hreach Hin Hne.
  destruct (locale_set_supported_view config env calls st lang Hreach Hin)
    as (st' & map & Hset & Hloc & Htr & Hmap & Hview).
  exists st'. split.
  { cbn [setLocale]. unfold truthy, includes.
    by rewrite (bool_decide_eq_false_2 _ Hne), (bool_decide_eq_true_2 _ Hin). }
  repeat split; try done. intros key replacements.
  rewrite (t_returned config key replacements st' map Hview).
  unfold stored_translation. by rewrite Hmap.
Qed.

(** The end-to-end scenario of the specification: after
    [setLocale('zh-TW')], [bye] has no translation and comes back as the
    key. *)
Lemma setLocale_switches_translations_witness :
  ∃ st',
    setLocale Fixture.test_config (LString "zh-TW") Fixture.fresh_store
    = Ok (tt, st')
    ∧ locale st' = "zh-TW"
    ∧ translations st' = translations Fixture.fresh_store
    ∧ ∀ key replacements,
        returned (t Fixture.test_config key replacements st')
        = Ok (rendered replacements
                (default key
                   (stored_translation (translations Fixture.fresh_store)
                      "zh-TW" key))).
Proof.
  assert (reaches Fixture.test_config Fixture.browser_env [] Fixture.fresh_store)
    as Hreach by reflexivity.
  apply (setLocale_switches_translations Fixture.test_config
           Fixture.browser_env [] Fixture.fresh_store "zh-TW" Hreach).
  - right; right; left.
  - discriminate.
Defined.

(** ** The table over a run of calls *)

Section table_over_calls.

Variable config : I18nConfig.

Implicit Types (st : State) (lang key : string)
  (batches : list PartialTranslationEntryMap).

Lemma write_pairs_nothing lang (start : gmap string string)
    (pairs : list (string * string * string)) :
  (∀ key l value, (key, l, value) ∈ pairs → l ≠ lang) →
  Spec.write_pairs lang start pairs = start.
Proof.
  unfold Spec.write_pairs. revert start.
  induction pairs as [|[[key l] value] pairs IH]; intros start Hnone; [done|].
  cbn [foldl]. rewrite bool_decide_eq_false_2 by (apply (Hnone key l value); left).
  apply IH. intros k l' v Hin. apply (Hnone k l' v). by right.
Qed.

Lemma write_pairs_twice lang (start : gmap string string)
    (pairs : list (string * string * string)) :
  Spec.write_pairs lang (Spec.write_pairs lang start pairs) pairs
  = Spec.write_pairs lang start pairs.
Proof.
  apply map_eq. intros key. rewrite !write_pairs_lookup.
  by destruct (Spec.last_write lang key pairs).
Qed.

Lemma last_write_app lang key (ps qs : list (string * string * string)) :
  Spec.last_write lang key (ps ++ qs)
  = match Spec.last_write lang key qs with
    | Some value => Some value
    | None => Spec.last_write lang key ps
    end.
Proof. unfold Spec.last_write. by rewrite omap_app, last_app. Qed.

Lemma last_write_elem_of lang key (pairs : list (string * string * string))
    (value : string) :
  Spec.last_write lang key pairs = Some value → (key, lang, value) ∈ pairs.
Proof.
  unfold Spec.last_write. intros Hlast%last_Some_elem_of.
  apply list_elem_of_omap in Hlast as ([[k l] v] & Hin & Hsome).
  case_bool_decide as Heq; [|done]. destruct Heq as [-> ->].
  by injection Hsome as ->.
Qed.

(** The table [extendTranslations] leaves, locale by locale. *)
Lemma extendTranslations_lookup batches st :
  store_ok config st →
  ∃ merged,
    extendTranslations config batches st
    = Ok (tt, with_t (get_ref merged (locale st)) (with_translations merged st))
    ∧ ∀ lang, merged !! lang
        = (λ map, Spec.write_pairs lang map (Spec.all_pairs batches))
            <$> translations st !! lang.
Proof.
  intros Hok.
  destruct (extendTranslations_ok config batches st Hok)
    as (merged & Hmerge & _ & Hrun).
  exists merged. split; [done|]. intros lang.
  destruct (merge_translations_lookup
              (makeTranslation (supportedLocales config) batches)
              (translations st)) as (merged' & Hmerge' & Hlookup).
  { intros l Hl. apply Hok. by apply makeTranslation_is_Some in Hl. }
  rewrite Hmerge in Hmerge'. injection Hmerge' as <-.
  rewrite Hlookup, makeTranslation_lookup. unfold Spec.build_lookup.
  case_bool_decide as Hin.
  - destruct (translations st !! lang) as [map|]; [|done].
    cbn [fmap option_fmap option_map]. by rewrite (write_pairs_union lang map).
  - destruct (translations st !! lang) as [map|] eqn:Hmap; [|done].
    destruct Hin. apply Hok. by rewrite Hmap.
Qed.

Lemma extendTranslations_store_ok batches st merged :
  store_ok config st →
  (∀ lang, merged !! lang
     = (λ map, Spec.write_pairs lang map (Spec.all_pairs batches))
         <$> translations st !! lang) →
  store_ok config
    (with_t (get_ref merged (locale st)) (with_translations merged st)).
Proof.
  intros [Hdom Hstored] Hlookup. split; [|done].
  intros lang. cbn [translations with_t with_translations].
  by rewrite Hlookup, fmap_is_Some.
Qed.

(** The table after any calls, started from a table built from batches. *)
Lemma perform_all_table (calls : list call) batches st st' :
  store_ok config st →
  translations st = makeTranslation (supportedLocales config) batches →
  perform_all config calls st = Ok (tt, st') →
  translations st'
  = makeTranslation (supportedLocales config)
      (batches ++ extension_batches calls).
Proof.
  revert batches st. induction calls as [|c calls IH]; intros batches st Hok Htable.
  - intros [= <-]. by rewrite app_nil_r.
  - cbn [perform_all]. unfold mbind, M_bind.
    destruct (perform_ok config c st Hok) as (st1 & Hc & Hok1 & _).
    rewrite Hc. intros Hrest.
    assert (translations st1
            = makeTranslation (supportedLocales config)
                (batches ++ extension_batches [c])) as Htable1.
    { destruct c as [arg|lang|newTranslations]; cbn [perform] in Hc.
      - destruct (setLocale_ok config arg st Hok) as (st2 & Hc' & _ & _ & Htr).
        rewrite Hc in Hc'. injection Hc' as <-.
        by rewrite Htr, Htable, app_nil_r.
      - destruct (locale_set_ok config lang st Hok) as (st2 & Hc' & _ & _ & Htr & _).
        rewrite Hc in Hc'. injection Hc' as <-.
        by rewrite Htr, Htable, app_nil_r.
      - destruct (extendTranslations_ok config newTranslations st Hok)
          as (merged & Hmerge & _ & Hrun).
        rewrite Hc in Hrun. injection Hrun as ->.
        cbn [translations with_t with_translations].
        rewrite Htable, merge_makeTranslation in Hmerge. injection Hmerge as <-.
        unfold extension_batches. cbn. by rewrite app_nil_r. }
    rewrite (IH _ st1 Hok1 Htable1 Hrest).
    f_equal. rewrite <- app_assoc. f_equal.
    unfold extension_batches. cbn. by rewrite app_nil_r.
Qed.

Lemma createI18nStore_fields (env : Env) :
  translations (createI18nStore config env)
  = makeTranslation (supportedLocales config) (initialTranslations config)
  ∧ locale (createI18nStore config env) = getInitLocale config env.
Proof.
  unfold createI18nStore.
  match goal with |- context [locale_subscriber _ ?l ?s] =>
    by destruct (locale_subscriber_fields config l s) as (-> & -> & _) end.
Qed.

End table_over_calls.

(** X9.  The table of a reachable state is the table [makeTranslation]
    builds from the initial batches followed by the batches of all the
    [extendTranslations] calls made so far, in the order of the calls:
    [setLocale] and writes to the locale store never change it. *)
Theorem table_is_built_from_all_batches (config : I18nConfig) (env : Env)
    (calls : list call) (st : State) :
  reaches config env calls st →
  translations st
  = makeTranslation (supportedLocales config)
      (initialTranslations config ++ extension_batches calls).
Proof.
  intros Hreach.
  apply (perform_all_table config calls (initialTranslations config)
           (createI18nStore config env) st);
    [apply createI18nStore_ok | apply createI18nStore_fields | exact Hreach].
Qed.

(** Two extensions of the override store, with a locale switch between
    them. *)
Lemma table_is_built_from_all_batches_witness :
  translations
    (state_after Fixture.override_config Fixture.browser_env
       [ExtendTranslations [[("k", [("en", "B")])]];
        SetLocale (LString "en");
        ExtendTranslations [[("j", [("en", "C")])]]])
  = makeTranslation ["en"]
      [[("k", [("en", "A")])]; [("k", [("en", "B")])]; [("j", [("en", "C")])]].
Proof.
  assert (reaches Fixture.override_config Fixture.browser_env
            [ExtendTranslations [[("k", [("en", "B")])]];
             SetLocale (LString "en");
             ExtendTranslations [[("j", [("en", "C")])]]]
            (state_after Fixture.override_config Fixture.browser_env
               [ExtendTranslations [[("k", [("en", "B")])]];
                SetLocale (LString "en");
                ExtendTranslations [[("j", [("en", "C")])]]]))
    as Hreach by (vm_compute; reflexivity).
  exact (table_is_built_from_all_batches Fixture.override_config
           Fixture.browser_env _ _ Hreach).
Defined.

(** X10.  An extension changes the pairs it writes and no other: in a
    reachable state [extendTranslations] runs to the end, and afterwards a
    key of a locale reads as the last string the batches wrote for that key
    and locale when the locale is supported and they wrote one, and as it
    read before in every other case; other keys and other locales are
    untouched. *)
Theorem extendTranslations_changes_written_pairs_only (config : I18nConfig)
    (env : Env) (calls : list call) (st : State)
    (newTranslations : list PartialTranslationEntryMap) :
  reaches config env calls st →
  ∃ st',
    extendTranslations config newTranslations st = Ok (tt, st')
    ∧ ∀ lang key,
        stored_translation (translations st') lang key
        = match Spec.last_write lang key (Spec.all_pairs newTranslations) with
          | Some value =>
              if bool_decide (lang ∈ supportedLocales config)
              then Some value else None
          | None => stored_translation (translations st) lang key
          end.
Proof.
  intros Hreach. pose proof (reaches_store_ok config env calls st Hreach) as Hok.
  destruct (extendTranslations_lookup config newTranslations st Hok)
    as (merged & -> & Hlookup).
  eexists. split; [done|]. intros lang key.
  unfold stored_translation. cbn [translations with_t with_translations].
  rewrite Hlookup.
  destruct (translations st !! lang) as [map|] eqn:Hmap;
    cbn [fmap option_fmap option_map mbind option_bind].
  - rewrite write_pairs_lookup, bool_decide_eq_true_2;
      [done | apply Hok; by rewrite Hmap].
  - rewrite bool_decide_eq_false_2; [by destruct (Spec.last_write _ _ _)|].
    intros Hin%Hok. rewrite Hmap in Hin. by destruct Hin.
Qed.

(** The sparse extension of the suite: [bye] gets its zh-TW string. *)
Lemma extendTranslations_changes_written_pairs_only_witness :
  ∃ st',
    extendTranslations Fixture.test_config [[("bye", [("zh-TW", "zaijian")])]]
      Fixture.fresh_store
    = Ok (tt, st')
    ∧ ∀ lang key,
        stored_translation (translations st') lang key
        = match Spec.last_write lang key
                  (Spec.all_pairs [[("bye", [("zh-TW", "zaijian")])]]) with
          | Some value =>
              if bool_decide (lang ∈ supportedLocales Fixture.test_config)
              then Some value else None
          | None => stored_translation (translations Fixture.fresh_store) lang key
          end.
Proof.
  assert (reaches Fixture.test_config Fixture.browser_env [] Fixture.fresh_store)
    as Hreach by reflexivity.
  exact (extendTranslations_changes_written_pairs_only Fixture.test_config
           Fixture.browser_env [] Fixture.fresh_store _ Hreach).
Defined.

(** X11.  An extension that names no supported locale (the empty list, a
    batch of empty entries, entries for unsupported locales only) leaves the
    table as it was; when the active locale is supported it leaves the whole
    state as it was. *)
Theorem extendTranslations_without_supported_pairs (config : I18nConfig)
    (env : Env) (calls : list call) (st : State)
    (newTranslations : list PartialTranslationEntryMap) :
  reaches config env calls st →
  (∀ lang, lang ∈ supportedLocales config →
     writes_nothing_for lang newTranslations) →
  ∃ st',
    extendTranslations config newTranslations st = Ok (tt, st')
    ∧ translations st' = translations st
    ∧ (locale st ∈ supportedLocales config → st' = st).
Proof.
  intros Hreach Hnothing.
  pose proof (reaches_store_ok config env calls st Hreach) as Hok.
  destruct (extendTranslations_lookup config newTranslations st Hok)
    as (merged & -> & Hlookup).
  assert (merged = translations st) as ->.
  { apply map_eq. intros lang. rewrite Hlookup.
    destruct (translations st !! lang) as [map|] eqn:Hmap; [|done].
    cbn [fmap option_fmap option_map]. f_equal.
    apply write_pairs_nothing. apply Hnothing, Hok. by rewrite Hmap. }
  eexists. split; [done|]. split; [done|]. intros Hin.
  destruct (reaches_view config env calls st Hreach) as [Hview _].
  destruct (proj2 (proj1 Hok (locale st)) Hin) as [map Hmap].
  unfold get_ref. rewrite Hmap, <- (Hview Hin). by destruct st.
Qed.

(** The extension of the suite with an entry for French only. *)
Lemma extendTranslations_without_supported_pairs_witness :
  ∃ st',
    extendTranslations Fixture.test_config [[("hello", [("fr", "Bonjour")])]; []]
      Fixture.fresh_store
    = Ok (tt, st')
    ∧ translations st' = translations Fixture.fresh_store
    ∧ (locale Fixture.fresh_store ∈ supportedLocales Fixture.test_config →
       st' = Fixture.fresh_store).
Proof.
  assert (reaches Fixture.test_config Fixture.browser_env [] Fixture.fresh_store)
    as Hreach by reflexivity.
  apply (extendTranslations_without_supported_pairs Fixture.test_config
           Fixture.browser_env [] Fixture.fresh_store _ Hreach).
  intros lang Hlang key l value Hin ->.
  apply elem_of_cons in Hin as [[= _ -> _]|Hin%elem_of_nil]; [|done].
  repeat (apply elem_of_cons in Hlang as [Hlang|Hlang]; [done|]).
  by apply elem_of_nil in Hlang.
Defined.

(** X12.  Extensions compose: in a reachable state, extending with one list
    of batches and then with another leaves the very state that one
    extension with the first list followed by the second leaves. *)
Theorem extendTranslations_composes (config : I18nConfig) (env : Env)
    (calls : list call) (st : State)
    (first second : list PartialTranslationEntryMap) :
  reaches config env calls st →
  (extendTranslations config first ;; extendTranslations config second) st
  = extendTranslations config (first ++ second) st.
Proof.
  intros Hreach. pose proof (reaches_store_ok config env calls st Hreach) as Hok.
  destruct (extendTranslations_lookup config first st Hok)
    as (merged1 & Hrun1 & Hlookup1).
  pose proof (extendTranslations_store_ok config first st merged1 Hok Hlookup1)
    as Hok1.
  destruct (extendTranslations_lookup config second _ Hok1)
    as (merged2 & Hrun2 & Hlookup2).
  destruct (extendTranslations_lookup config (first ++ second) st Hok)
    as (merged & -> & Hlookup).
  unfold mbind, M_bind. rewrite Hrun1, Hrun2.
  cbn [translations locale with_t with_translations] in *.
  assert (merged2 = merged) as ->; [|done].
  apply map_eq. intros lang. rewrite Hlookup2, Hlookup1, Hlookup.
  destruct (translations st !! lang) as [map|]; [|done].
  cbn [fmap option_fmap option_map]. by rewrite all_pairs_app, write_pairs_app.
Qed.

(** Two extensions of the suite's store against their concatenation. *)
Lemma extendTranslations_composes_witness :
  (extendTranslations Fixture.test_config [[("bye", [("zh-TW", "zaijian")])]] ;;
   extendTranslations Fixture.test_config [[("hello", [("en", "Hi")])]])
    Fixture.fresh_store
  = extendTranslations Fixture.test_config
      [[("bye", [("zh-TW", "zaijian")])]; [("hello", [("en", "Hi")])]]
      Fixture.fresh_store.
Proof.
  assert (reaches Fixture.test_config Fixture.browser_env [] Fixture.fresh_store)
    as Hreach by reflexivity.
  exact (extendTranslations_composes Fixture.test_config Fixture.browser_env []
           Fixture.fresh_store [[("bye", [("zh-TW", "zaijian")])]]
           [[("hello", [("en", "Hi")])]] Hreach).
Defined.

(** X13.  Extending twice with the same batches is extending once: in a
    reachable state the second of two equal [extendTranslations] calls
    changes nothing. *)
Theorem extendTranslations_idempotent (config : I18nConfig) (env : Env)
    (calls : list call) (st : State)
    (newTranslations : list PartialTranslationEntryMap) :
  reaches config env calls st →
  (extendTranslations config newTranslations ;;
   extendTranslations config newTranslations) st
  = extendTranslations config newTranslations st.
Proof.
  intros Hreach. pose proof (reaches_store_ok config env calls st Hreach) as Hok.
  destruct (extendTranslations_lookup config newTranslations st Hok)
    as (merged1 & Hrun1 & Hlookup1).
  pose proof (extendTranslations_store_ok config newTranslations st merged1
                Hok Hlookup1) as Hok1.
  destruct (extendTranslations_lookup config newTranslations _ Hok1)
    as (merged2 & Hrun2 & Hlookup2).
  unfold mbind, M_bind. rewrite Hrun1, Hrun2.
  cbn [translations locale with_t with_translations] in *.
  assert (merged2 = merged1) as ->; [|done].
  apply map_eq. intros lang. rewrite Hlookup2, Hlookup1.
  destruct (translations st !! lang) as [map|]; [|done].
  cbn [fmap option_fmap option_map]. by rewrite write_pairs_twice.
Qed.

(** The same extension of the suite's store, twice. *)
Lemma extendTranslations_idempotent_witness :
  (extendTranslations Fixture.test_config [[("hello", [("en", "Hi")])]] ;;
   extendTranslations Fixture.test_config [[("hello", [("en", "Hi")])]])
    Fixture.fresh_store
  = extendTranslations Fixture.test_config [[("hello", [("en", "Hi")])]]
      Fixture.fresh_store.
Proof.
  assert (reaches Fixture.test_config Fixture.browser_env [] Fixture.fresh_store)
    as Hreach by reflexivity.
  exact (extendTranslations_idempotent Fixture.test_config Fixture.browser_env []
           Fixture.fresh_store [[("hello", [("en", "Hi")])]] Hreach).
Defined.

(** X14.  The order of batches matters only where they collide: when no
    key is written for the same supported locale by both of two lists of
    batches, [makeTranslation] builds the same table from the two lists in
    either order. *)
Theorem makeTranslation_order_of_disjoint_batches (supported : list string)
    (first second : list PartialTranslationEntryMap) :
  (∀ key lang value value',
     lang ∈ supported →
     (key, lang, value) ∈ Spec.all_pairs first →
     (key, lang, value') ∈ Spec.all_pairs second → False) →
  makeTranslation supported (first ++ second)
  = makeTranslation supported (second ++ first).
Proof.
  intros Hdisjoint. apply map_eq. intros lang.
  rewrite !makeTranslation_lookup. unfold Spec.build_lookup.
  case_bool_decide as Hin; [|done]. f_equal. apply map_eq. intros key.
  rewrite !write_pairs_lookup, !all_pairs_app, !last_write_app, lookup_empty.
  destruct (Spec.last_write lang key (Spec.all_pairs first)) as [value|] eqn:H1;
    destruct (Spec.last_write lang key (Spec.all_pairs second)) as [value'|] eqn:H2;
    try done.
  apply last_write_elem_of in H1, H2.
  by destruct (Hdisjoint key lang value value').
Qed.

(** Two batches of the suite that share no key. *)
Lemma makeTranslation_order_of_disjoint_batches_witness :
  makeTranslation ["en"; "es"]
    ([[("hello", [("en", "Hello")])]] ++ [[("bye", [("en", "Goodbye")])]])
  = makeTranslation ["en"; "es"]
      ([[("bye", [("en", "Goodbye")])]] ++ [[("hello", [("en", "Hello")])]]).
Proof.
  apply makeTranslation_order_of_disjoint_batches.
  intros key lang value value' _ H1 H2.
  apply elem_of_cons in H1 as [[= -> _ _]|H1%elem_of_nil]; [|done].
  apply elem_of_cons in H2 as [[= ? _ _]|H2%elem_of_nil]; done.
Defined.

(** X15.  A fresh store translates from its initial batches: when the
    default locale is supported, the translator of the store just created
    returns, for every key, the last string the initial batches wrote for
    that key in the locale the resolver chose, or the key when they wrote
    none, with the placeholders replaced when replacements are given. *)
Theorem fresh_store_translates_initial_batches (config : I18nConfig)
    (env : Env) (key : string) (replacements : option (gmap string jsval)) :
  defaultLocale config ∈ supportedLocales config →
  returned (t config key replacements (createI18nStore config env))
  = Ok (rendered replacements
          (default key
             (Spec.last_write (getInitLocale config env) key
                (Spec.all_pairs (initialTranslations config))))).
Proof.
  intros Hdefault.
  destruct (createI18nStore_fields config env) as [Htable Hlocale].
  pose proof (getInitLocale_supported config Hdefault env) as Hin.
  destruct (current_view_supported config env [] (createI18nStore config env)
              eq_refl) as (map & Hmap & Hview); [by rewrite Hlocale|].
  rewrite (t_returned config key replacements _ map Hview).
  rewrite Hlocale, Htable, makeTranslation_lookup in Hmap.
  unfold Spec.build_lookup in Hmap.
  rewrite bool_decide_eq_true_2 in Hmap by done. injection Hmap as <-.
  rewrite write_pairs_lookup, lookup_empty.
  by destruct (Spec.last_write _ _ _).
Qed.

(** The suite's store in its browser: [welcome] with a name. *)
Lemma fresh_store_translates_initial_batches_witness :
  returned (t Fixture.test_config "welcome" (Some {[ "name" := JStr "Gemini" ]})
              (createI18nStore Fixture.test_config Fixture.browser_env))
  = Ok "Welcome, Gemini!".
Proof.
  rewrite (fresh_store_translates_initial_batches Fixture.test_config
             Fixture.browser_env "welcome" (Some {[ "name" := JStr "Gemini" ]})).
  - vm_compute. reflexivity.
  - left.
Defined.

(** ** More on placeholder substitution *)

Section placeholders.

Implicit Types (s name : string) (callback : string → string → string).

(** The scan asks the callback about the captured names only. *)
Lemma replace_from_ext callback callback' (skip : nat) s :
  (∀ name, name ∈ names_from skip s →
     callback (token name) name = callback' (token name) name) →
  replace_from callback skip s = replace_from callback' skip s.
Proof.
  revert skip. induction s as [|c s IH]; intros skip Hsame; [done|].
  destruct skip as [|k]; cbn [replace_from names_from] in *.
  - destruct (exec_placeholder (String c s)) as [[name rest]|].
    + rewrite (Hsame name) by left. f_equal. apply IH.
      intros n Hn. apply Hsame. by right.
    + f_equal. by apply IH.
  - by apply IH.
Qed.

(** A callback that gives every match back rebuilds the text. *)
Lemma replace_placeholders_id s :
  replace_placeholders (λ match_ _, match_) s = s.
Proof.
  remember (String.length s) as n eqn:Hn.
  revert s Hn. induction (lt_wf n) as [n _ IH]. intros s ->.
  destruct s as [|c s]; [done|].
  destruct (exec_placeholder (String c s)) as [[name rest]|] eqn:Hexec.
  - destruct (exec_placeholder_sound _ _ _ Hexec) as (Heq & Hne & Hname).
    rewrite Heq, replace_placeholders_token by done. f_equal.
    apply (IH (String.length rest)); [|done].
    rewrite Heq, length_append. unfold token.
    rewrite append_cons. cbn [String.length]. lia.
  - rewrite replace_placeholders_char by done. f_equal.
    apply (IH (String.length s)); [cbn [String.length]; lia | done].
Qed.

(** Every captured name is the name of a token of the text. *)
Lemma names_from_tokens (skip : nat) s name :
  name ∈ names_from skip s →
  name ≠ EmptyString ∧ brace_free name
  ∧ ∃ before rest, s = before +:+ token name +:+ rest.
Proof.
  revert skip. induction s as [|c s IH]; intros skip; [by intros ?%elem_of_nil|].
  assert (∀ k, name ∈ names_from k s →
            name ≠ EmptyString ∧ brace_free name
            ∧ ∃ before rest, String c s = before +:+ token name +:+ rest) as Hlater.
  { intros k (Hne & Hname & before & rest & ->)%IH.
    repeat split; try done. by exists (String c before), rest. }
  destruct skip as [|k]; cbn [names_from]; [|apply Hlater].
  destruct (exec_placeholder (String c s)) as [[n rest]|] eqn:Hexec; [|apply Hlater].
  intros [->|Hin]%elem_of_cons; [|by apply (Hlater _ Hin)].
  destruct (exec_placeholder_sound _ _ _ Hexec) as (Heq & Hne & Hname).
  repeat split; try done. by exists EmptyString, rest.
Qed.

End placeholders.

(** X16.  Substitution reads the replacements at the names of the
    placeholders of the text and nowhere else: two replacements objects that
    agree on every name the pattern captures in a text give the same
    result, whatever other entries they hold.  Each captured name is the
    name of a token [{name}] of the text. *)
Theorem interpolate_reads_captured_names_only
    (replacements replacements' : gmap string jsval) (s : string) :
  (∀ name, name ∈ placeholder_names s →
     replacements !! name = replacements' !! name) →
  interpolate replacements s = interpolate replacements' s
  ∧ ∀ name, name ∈ placeholder_names s →
      ∃ before rest, s = before +:+ token name +:+ rest.
Proof.
  intros Hsame. split.
  - unfold interpolate, replace_placeholders. apply replace_from_ext.
    intros name Hname. unfold substitute, get_property.
    by rewrite (Hsame name Hname).
  - intros name Hname. by apply names_from_tokens in Hname as (_ & _ & ?).
Qed.

(** The suite's [welcome] text, with and without an entry it does not
    name. *)
Lemma interpolate_reads_captured_names_only_witness :
  interpolate {[ "name" := JStr "Gemini"; "place" := JStr "Taiwan" ]}
    "Welcome, {name}!"
  = interpolate {[ "name" := JStr "Gemini" ]} "Welcome, {name}!".
Proof.
  apply (interpolate_reads_captured_names_only
           {[ "name" := JStr "Gemini"; "place" := JStr "Taiwan" ]}
           {[ "name" := JStr "Gemini" ]} "Welcome, {name}!").
  intros name Hname. vm_compute in Hname.
  apply elem_of_cons in Hname as [->|Hname%elem_of_nil]; [reflexivity | done].
Defined.

(** X17.  A text none of whose placeholders is bound comes back unchanged:
    when, for every name the pattern captures in the text, reading that name
    from the replacements object gives [undefined] or [null] (an own
    property holding one of them, or a name that is neither an own property
    nor one inherited from [Object.prototype]), the result is the text
    itself, braces included.  This covers a text without placeholders. *)
Theorem interpolate_unbound_is_identity (replacements : gmap string jsval)
    (s : string) :
  Forall (unbound replacements) (placeholder_names s) →
  interpolate replacements s = s.
Proof.
  intros Hunbound. rewrite <- (replace_placeholders_id s) at 2.
  unfold interpolate, replace_placeholders. apply replace_from_ext.
  intros name Hname. rewrite Forall_forall in Hunbound.
  specialize (Hunbound name Hname). unfold unbound, substitute in *.
  by destruct (get_property replacements name).
Qed.

(** The suite's replacement under a wrong key. *)
Lemma interpolate_unbound_is_identity_witness :
  interpolate {[ "wrong_key" := JStr "User" ]} "Welcome, {name}!"
  = "Welcome, {name}!".
Proof.
  apply interpolate_unbound_is_identity.
  vm_compute. repeat constructor.
Defined.

(** X18.  Text before the first opening brace is copied as it is: a prefix
    without an opening brace comes out unchanged, and the substitution goes
    on in what follows it. *)
Theorem interpolate_copies_text_before_brace
    (replacements : gmap string jsval) (literal s : string) :
  Forall (λ c, c ≠ "{"%char) (list_ascii_of_string literal) →
  interpolate replacements (literal +:+ s)
  = literal +:+ interpolate replacements s.
Proof.
  unfold interpolate.
  induction literal as [|c literal IH]; cbn [list_ascii_of_string];
    intros Hliteral; [done|].
  apply Forall_cons in Hliteral as [Hc Hliteral].
  rewrite !append_cons, replace_placeholders_char, (IH Hliteral); [done|].
  cbn [exec_placeholder]. by apply Ascii.eqb_neq in Hc as ->.
Qed.

(** The greeting before [{name}], closing brace included. *)
Lemma interpolate_copies_text_before_brace_witness :
  interpolate {[ "name" := JStr "Gemini" ]} ("Welcome}, " +:+ "{name}!")
  = "Welcome}, " +:+ interpolate {[ "name" := JStr "Gemini" ]} "{name}!".
Proof.
  apply interpolate_copies_text_before_brace.
  vm_compute. repeat constructor; discriminate.
Defined.

(** X22.  What the translator does with a replacements object.  It returns
    the looked-up text (the stored string, or the key) with its placeholders
    replaced in one pass, and that pass is fixed by three equations.  At a
    token [{name}], with [name] one or more brace-free characters, it reads
    [name] from the object, own properties first and then the ones of
    [Object.prototype]: a string is emitted as it is, a safe integer as its
    decimal numeral (zero as 0), any other number as the text the language
    prints for it, an inherited function or object in its string form, and
    for [null] and [undefined] the token itself; the pass then goes on with
    the text after the token, so what it emitted is not scanned again.  At
    any other character it copies the character.  At the end of the text it
    stops. *)
Theorem interpolate_placeholders (replacements : gmap string jsval) :
  (∀ config st map key,
     current_view st = Some map →
     returned (t config key (Some replacements) st)
     = Ok (interpolate replacements (default key (map !! key))))
  ∧ (∀ name rest,
       name ≠ EmptyString → brace_free name →
       interpolate replacements (token name +:+ rest)
       = match
           match replacements !! name with
           | Some value => value
           | None => default JUndefined (Object_prototype !! name)
           end
         with
         | JStr s => s
         | JNum (SafeInteger z) => pretty (proj1_sig z)
         | JNum (OtherNumber text) => text
         | JFunction f => "function " +:+ f +:+ "() { [native code] }"
         | JObject => "[object Object]"
         | JNull | JUndefined => token name
         end +:+ interpolate replacements rest)
  ∧ (∀ c s,
       (∀ name rest, name ≠ EmptyString → brace_free name →
          String c s ≠ token name +:+ rest) →
       interpolate replacements (String c s)
       = String c (interpolate replacements s))
  ∧ interpolate replacements EmptyString = EmptyString.
Proof.
  repeat split.
  - intros config st map key Hview. unfold t. run_M. rewrite Hview.
    destruct (map !! key) as [translation|]; [done|].
    by destruct (devLogs_enabled config).
  - intros name rest Hne Hname. unfold interpolate.
    rewrite replace_placeholders_token by done. f_equal.
    unfold substitute, get_property.
    destruct (replacements !! name) as [[| [] | | | |]|];
      [done.. |].
    by destruct (default JUndefined (Object_prototype !! name)) as [| [] | | | |].
  - intros c s Hno. unfold interpolate.
    by rewrite replace_placeholders_char by by apply exec_placeholder_none.
Qed.

(** The test of the suite for zero: a text that starts with [{num}], and
    [num] bound to 0. *)
Lemma interpolate_placeholders_witness :
  interpolate {[ "num" := JNum zero ]} (token "num" +:+ " items")
  = "0" +:+ interpolate {[ "num" := JNum zero ]} " items".
Proof.
  exact (proj1 (proj2 (interpolate_placeholders {[ "num" := JNum zero ]}))
           "num" " items" ltac:(discriminate)
           (brace_free_check "num" eq_refl)).
Defined.

(** ** The summary of an extension *)

Section summary.

Import Diagnostics.

Variable config : I18nConfig.

Implicit Types (lang key : string) (batches : list PartialTranslationEntryMap).

(** The order of iteration holds each supported locale, once. *)
Lemma insertion_order_spec (langs : list string) :
  NoDup (insertion_order langs)
  ∧ ∀ lang, lang ∈ insertion_order langs ↔ lang ∈ langs.
Proof.
  unfold insertion_order.
  assert (∀ keys : list string,
            NoDup keys →
            NoDup (foldl (λ (keys : list string) lang,
                            if bool_decide (lang ∈ keys) then keys
                            else (keys ++ [lang])%list) keys langs)
            ∧ ∀ lang,
                lang ∈ foldl (λ (keys : list string) lang,
                                if bool_decide (lang ∈ keys) then keys
                                else (keys ++ [lang])%list) keys langs
                ↔ lang ∈ keys ∨ lang ∈ langs) as Hgen.
  { induction langs as [|l langs IH]; intros keys Hkeys; cbn [foldl].
    - split; [done|]. intros lang. rewrite elem_of_nil. tauto.
    - case_bool_decide as Hin.
      + destruct (IH keys Hkeys) as [Hnodup Helem]. split; [done|].
        intros lang. rewrite Helem, elem_of_cons.
        split; [tauto|]. intros [?|[->|?]]; tauto.
      + destruct (IH (keys ++ [l])%list) as [Hnodup Helem].
        { apply NoDup_app. repeat split; [done | | apply NoDup_singleton].
          intros x Hx ->%list_elem_of_singleton. done. }
        split; [done|]. intros lang.
        rewrite Helem, elem_of_app, list_elem_of_singleton, elem_of_cons. tauto. }
  destruct (Hgen [] (NoDup_nil_2)) as [Hnodup Helem]. split; [done|].
  intros lang. rewrite Helem, elem_of_nil. tauto.
Qed.

(** The keys of the new table for a locale are the keys the batches name
    for it. *)
Lemma new_keys_lookup lang batches key :
  is_Some (new_keys lang batches !! key)
  ↔ ∃ value, (key, lang, value) ∈ Spec.all_pairs batches.
Proof.
  unfold new_keys. rewrite write_pairs_lookup, lookup_empty. split.
  - destruct (Spec.last_write _ _ _) as [value|] eqn:Hlast;
      [|by intros [? ?]].
    intros _. exists value. by apply last_write_elem_of.
  - intros [value Hin]. unfold Spec.last_write.
    destruct (last _) as [v|] eqn:Hlast; [done|].
    apply last_None in Hlast.
    assert (value ∈ omap (λ '(k, l, value),
                            if bool_decide (k = key ∧ l = lang)
                            then Some value else None)
                         (Spec.all_pairs batches)) as Hv.
    { apply list_elem_of_omap. exists (key, lang, value). split; [done|].
      by rewrite bool_decide_eq_true_2. }
    rewrite Hlast in Hv. by apply elem_of_nil in Hv.
Qed.

Lemma new_keys_empty lang batches :
  new_keys lang batches = ∅ ↔ writes_nothing_for lang batches.
Proof.
  split.
  - intros Hempty key l value Hin ->.
    assert (is_Some (new_keys lang batches !! key)) as [v Hv].
    { apply new_keys_lookup. by exists value. }
    by rewrite Hempty, lookup_empty in Hv.
  - intros Hnothing. unfold new_keys. by apply write_pairs_nothing.
Qed.

(** The lines of the summary for the locales of a list. *)
Lemma count_lang_fold batches (langs : list string)
    (lines : list console_call) (totalCount : nat) :
  (∀ lang, lang ∈ langs → lang ∈ supportedLocales config) →
  ∃ total,
    foldl (count_lang (makeTranslation (supportedLocales config) batches))
      (lines, totalCount) langs
    = ((lines
        ++ ((λ lang, Log (count_message (size (new_keys lang batches)) lang))
              <$> filter (λ lang, new_keys lang batches ≠ ∅) langs))%list,
       totalCount + total)
    ∧ (total = 0 ↔ filter (λ lang, new_keys lang batches ≠ ∅) langs = []).
Proof.
  revert lines totalCount.
  induction langs as [|lang langs IH]; intros lines totalCount Hsupported.
  - exists 0. cbn. by rewrite app_nil_r, Nat.add_0_r.
  - cbn [foldl]. unfold count_lang at 2.
    rewrite makeTranslation_lookup. unfold Spec.build_lookup.
    rewrite bool_decide_eq_true_2 by (apply Hsupported; left).
    fold (new_keys lang batches). rewrite filter_cons.
    destruct (decide (new_keys lang batches ≠ ∅)) as [Hsome|Hnone].
    + rewrite bool_decide_eq_true_2
        by (by apply map_size_non_empty_iff in Hsome; lia).
      destruct (IH (lines ++ [Log (count_message (size (new_keys lang batches)) lang)])%list
                  (totalCount + size (new_keys lang batches)))
        as (total & -> & Hzero).
      { intros l Hl. apply Hsupported. by right. }
      exists (size (new_keys lang batches) + total). split.
      * f_equal; [by rewrite <- app_assoc | lia].
      * apply map_size_non_empty_iff in Hsome. split; [lia | done].
    + apply dec_stable in Hnone. rewrite Hnone, map_size_empty.
      rewrite bool_decide_eq_false_2 by lia.
      apply IH. intros l Hl. apply Hsupported. by right.
Qed.

End summary.


(** X20.  An extension whose batches name no supported locale (the empty
    list, empty entries, unsupported locales only) prints, with [devLogs]
    on, the group with the one line saying that nothing was added. *)
Theorem extendTranslations_summary_nothing_added (config : I18nConfig)
    (batches : list PartialTranslationEntryMap) :
  devLogs_enabled config = true →
  (∀ lang, lang ∈ supportedLocales config → writes_nothing_for lang batches) →
  Diagnostics.extendTranslations_summary config batches
  = [Diagnostics.Group "[i18n] Extended translations...";
     Diagnostics.Log "No new translations were added.";
     Diagnostics.GroupEnd].
Proof.
  intros Hlogs Hnothing.
  destruct (insertion_order_spec (supportedLocales config)) as [_ Helem].
  unfold Diagnostics.extendTranslations_summary. rewrite Hlogs.
  destruct (count_lang_fold config batches
              (Diagnostics.insertion_order (supportedLocales config)) [] 0)
    as (total & -> & Hzero); [by intros lang ?%Helem|].
  assert (filter (λ lang, Diagnostics.new_keys lang batches ≠ ∅)
            (Diagnostics.insertion_order (supportedLocales config)) = [])
    as Hfilter.
  { apply elem_of_nil_inv. intros lang [Hsome Hin]%list_elem_of_filter.
    apply Hsome, new_keys_empty, Hnothing, Helem, Hin. }
  rewrite Hfilter. cbn [fmap list_fmap app].
  by rewrite bool_decide_eq_true_2 by (by apply Hzero).
Qed.

(** The suite's two calls that add nothing: the empty list, and a list
    with an empty entry. *)
Lemma extendTranslations_summary_nothing_added_witness :
  Diagnostics.extendTranslations_summary Fixture.test_config []
  = [Diagnostics.Group "[i18n] Extended translations...";
     Diagnostics.Log "No new translations were added.";
     Diagnostics.GroupEnd]
  ∧ Diagnostics.extendTranslations_summary Fixture.test_config [[]]
    = [Diagnostics.Group "[i18n] Extended translations...";
       Diagnostics.Log "No new translations were added.";
       Diagnostics.GroupEnd].
Proof.
  split; apply extendTranslations_summary_nothing_added; try reflexivity;
    intros lang _ key l value Hin; by apply elem_of_nil in Hin.
Defined.

(** X21.  The validating setter keeps the store consistent: when the
    default locale is supported and every direct write to the locale store
    is of a supported locale (as with [setLocale] and [extendTranslations]
    alone), every reachable state has a supported active locale, and the
    [_t] store holds the [Map] of that locale. *)
Theorem supported_writes_keep_locale_supported (config : I18nConfig)
    (env : Env) (calls : list call) (st : State) :
  defaultLocale config ∈ supportedLocales config →
  Forall (writes_supported config) calls →
  reaches config env calls st →
  locale st ∈ supportedLocales config
  ∧ _t st = Some (locale st)
  ∧ is_Some (translations st !! locale st).
Proof.
  intros Hdefault Hcalls Hreach.
  destruct (perform_all_view_ok config calls (createI18nStore config env) Hcalls
              (createI18nStore_view_ok config Hdefault env))
    as (st' & Hrun & [Hdom _] & Ht & Hin).
  unfold reaches in Hreach. rewrite Hreach in Hrun. injection Hrun as <-.
  repeat split; try done. by apply Hdom.
Qed.

(** The suite's store after a rejected and an accepted [setLocale]. *)
Lemma supported_writes_keep_locale_supported_witness :
  locale (state_after Fixture.test_config Fixture.browser_env
            [SetLocale (LString "fr"); SetLocale (LString "es")])
  ∈ supportedLocales Fixture.test_config
  ∧ _t (state_after Fixture.test_config Fixture.browser_env
          [SetLocale (LString "fr"); SetLocale (LString "es")])
    = Some (locale (state_after Fixture.test_config Fixture.browser_env
                      [SetLocale (LString "fr"); SetLocale (LString "es")]))
  ∧ is_Some (translations
               (state_after Fixture.test_config Fixture.browser_env
                  [SetLocale (LString "fr"); SetLocale (LString "es")])
             !! locale (state_after Fixture.test_config Fixture.browser_env
                          [SetLocale (LString "fr"); SetLocale (LString "es")])).
Proof.
  assert (reaches Fixture.test_config Fixture.browser_env
            [SetLocale (LString "fr"); SetLocale (LString "es")]
            (state_after Fixture.test_config Fixture.browser_env
               [SetLocale (LString "fr"); SetLocale (LString "es")]))
    as Hreach by (vm_compute; reflexivity).
  refine (supported_writes_keep_locale_supported Fixture.test_config
            Fixture.browser_env _ _ _ _ Hreach); [left | repeat constructor].
Defined.

(** * Further scenarios *)

Example summary_of_the_logged_extension :
  Diagnostics.extendTranslations_summary Fixture.test_config
    [[("log.key", [("en", "Log")])]]
  = [Diagnostics.Group "[i18n] Extended translations...";
     Diagnostics.Log "1 keys added/updated for lang 'en'.";
     Diagnostics.GroupEnd].
Proof. vm_compute. reflexivity. Qed.

Example summary_follows_first_appearance :
  Diagnostics.extendTranslations_summary
    {| supportedLocales := ["es"; "en"; "es"]; defaultLocale := "en";
       initialTranslations := []; localStorageKey := "lang"; devLogs := None |}
    [[("a", [("en", "A"); ("es", "a"); ("fr", "x")]); ("b", [("es", "b")])];
     [("a", [("es", "a2")])]]
  = [Diagnostics.Group "[i18n] Extended translations...";
     Diagnostics.Log "2 keys added/updated for lang 'es'.";
     Diagnostics.Log "1 keys added/updated for lang 'en'.";
     Diagnostics.GroupEnd].
Proof. vm_compute. reflexivity. Qed.

Example summary_is_silent_without_devLogs :
  Diagnostics.extendTranslations_summary
    {| supportedLocales := ["en"]; defaultLocale := "en";
       initialTranslations := []; localStorageKey := "lang";
       devLogs := Some false |}
    [[("log.key", [("en", "Log")])]]
  = [].
Proof. reflexivity. Qed.

Example defineI18nConfig_returns_its_argument :
  createI18nStore (defineI18nConfig Fixture.test_config) Fixture.browser_env
  = Fixture.fresh_store.
Proof. reflexivity. Qed.
